(** * Minio object server: ListObjects argument checks, the connection
      multiplexer, XL bucket operations and the storage RPC handlers

    A shallow embedding of
      - cmd/bucket-handlers-listobjects.go       (module [ListObjectsArgs]),
      - cmd/server-mux.go                        (module [Mux]),
      - the [StorageAPI] interface               (module [Storage]),
      - the bucket operations of the XL layer    (module [XL]),
      - cmd/storage-rpc-server.go                (module [StorageRPC]),
    each followed by the properties proved of it.  Go's [int] and [int64]
    values are only compared here, never added to, and are integers of [Z];
    lengths and slice indices are naturals. *)

From Stdlib Require Import ZArith Ascii String.
From Stdlib.Strings Require Import Byte.
From stdpp Require Import base option list strings sorting gmap.

Local Open Scope string_scope.

(** ** Go library functions shared by the modules *)

(** [strings.HasPrefix]:
    [len(s) >= len(prefix) && s[0:len(prefix)] == prefix]. *)
Definition HasPrefix (s prefix : string) : bool :=
  (String.length prefix <=? String.length s)%nat
  && String.eqb (substring 0 (String.length prefix) s) prefix.

Lemma substring_0_app (p t : string) :
  substring 0 (String.length p) (p ++ t) = p.
Proof.
  induction p as [|c p IH]; simpl.
  - by destruct t.
  - by rewrite IH.
Qed.

Lemma substring_0_length (s : string) : substring 0 (String.length s) s = s.
Proof. induction s as [|c s IH]; simpl; [done|by rewrite IH]. Qed.

Lemma substring_0_0 (s : string) : substring 0 0 s = "".
Proof. by destruct s. Qed.

Lemma substring_0_split (n : nat) (s : string) :
  (n <= String.length s)%nat ->
  s = substring 0 n s ++ substring n (String.length s - n) s.
Proof.
  revert s; induction n as [|n IH]; intros s Hn.
  - rewrite substring_0_0, Nat.sub_0_r, substring_0_length. done.
  - destruct s as [|c s]; simpl in *; [lia|].
    change (String c s
            = String c (substring 0 n s ++ substring n (String.length s - n) s)).
    f_equal. apply IH. lia.
Qed.

Lemma length_string_app (p t : string) :
  String.length (p ++ t) = (String.length p + String.length t)%nat.
Proof. induction p as [|c p IH]; simpl; [done|by rewrite IH]. Qed.

(** [HasPrefix s p] holds exactly when [s] is [p] followed by something. *)
Lemma HasPrefix_spec (s p : string) :
  HasPrefix s p = true <-> exists t, s = p ++ t.
Proof.
  unfold HasPrefix. rewrite andb_true_iff, Nat.leb_le, String.eqb_eq. split.
  - intros [Hlen Hsub].
    exists (substring (String.length p) (String.length s - String.length p) s).
    rewrite <- Hsub at 1. by apply substring_0_split.
  - intros [t ->]. split.
    + rewrite length_string_app. lia.
    + apply substring_0_app.
Qed.

Lemma HasPrefix_empty (s : string) : HasPrefix s "" = true.
Proof. apply HasPrefix_spec. by exists s. Qed.

Lemma HasPrefix_cons (c d : ascii) (s p : string) :
  HasPrefix (String c s) (String d p) = Ascii.eqb c d && HasPrefix s p.
Proof.
  unfold HasPrefix. simpl.
  destruct (Ascii.eqb c d); simpl; [done|]. apply andb_false_r.
Qed.

Lemma HasPrefix_nil_cons (d : ascii) (p : string) :
  HasPrefix "" (String d p) = false.
Proof. done. Qed.

(** ** Error values

    Go compares the sentinel errors by identity; each is a constructor.  The
    first group is declared in cmd/storage-errors.go; the second is used by
    the code below and declared elsewhere in the package; the third comes
    from Go's library; the last are the object layer's typed errors. *)
Inductive error :=
| errUnexpected
| errCorruptedFormat
| errUnformattedDisk
| errDiskFull
| errDiskNotFound
| errDiskAccessDenied
| errFileNotFound
| errFileNameTooLong
| errVolumeExists
| errIsNotRegular
| errVolumeNotFound
| errVolumeNotEmpty
| errVolumeAccessDenied
| errFileAccessDenied
| errVolumeBusy
| errFaultyDisk
| errXLWriteQuorum
| errInvalidToken
| io_EOF
| io_ErrUnexpectedEOF
| bytes_ErrTooLarge
| BucketNameInvalid (Bucket : string)
| BucketNotFound (Bucket : string)
| BucketExists (Bucket : string)
| InsufficientWriteQuorum
| StorageFull.

#[global] Instance error_eq_dec : EqDecision error.
Proof. solve_decision. Defined.

(** * ListObjects query arguments (cmd/bucket-handlers-listobjects.go) *)
Module ListObjectsArgs.

(** The API error codes the two list handlers can answer with.  The
    repository's table has many more codes; [ErrOther] stands for whatever
    [toAPIErrorCode] and the authentication helpers return besides. *)
Inductive APIErrorCode :=
| ErrNone
| ErrInvalidMaxKeys
| ErrNotImplemented
| ErrAccessDenied
| ErrServerNotInitialized
| ErrOther (code : nat).

#[global] Instance APIErrorCode_eq_dec : EqDecision APIErrorCode.
Proof. solve_decision. Defined.

(** [listObjectsValidateArgs]; [maxKeys] is a Go [int], only compared with 0. *)
Definition listObjectsValidateArgs
  (prefix marker delimiter : string) (maxKeys : Z) : APIErrorCode :=
  if (maxKeys <? 0)%Z then ErrInvalidMaxKeys
  else if negb (String.eqb delimiter "") && negb (String.eqb delimiter "/")
  then ErrNotImplemented
  else if negb (String.eqb marker "") then
    if negb (HasPrefix marker prefix) then ErrNotImplemented else ErrNone
  else ErrNone.

(** *** The two handlers

    [authType] is the result of [getRequestAuthType]; the outcome of the
    policy or signature check that the switch runs for it is the request's
    [authResult].  The query string is taken as already split by
    [getListObjectsV1Args] / [getListObjectsV2Args]. *)
Inductive authType :=
| authTypeAnonymous | authTypeSigned | authTypePresigned | authTypeUnknown.

Record ListObjectsInfo := {
  IsTruncated : bool;
  NextMarker : string;
  Objects : list string;
  Prefixes : list string;
}.

(** What the object layer was asked: one entry per [ListObjects] call. *)
Record listCall := {
  callBucket : string;
  callPrefix : string;
  callMarker : string;
  callDelimiter : string;
  callMaxKeys : Z;
}.

Inductive response :=
| ErrorResponse (code : APIErrorCode)
| SuccessResponse (info : ListObjectsInfo).

(** The [ObjectLayer] interface, reduced to the method the handlers call,
    and the conversion of its errors to API codes. *)
Class ObjectLayer (E : Type) := {
  ListObjects : string -> string -> string -> string -> Z -> ListObjectsInfo * option E;
  toAPIErrorCode : E -> APIErrorCode;
}.

Record requestV1 := {
  v1Bucket : string;
  v1AuthType : authType;
  v1AuthResult : APIErrorCode;
  v1Prefix : string;
  v1Marker : string;
  v1Delimiter : string;
  v1MaxKeys : Z;
}.

Record requestV2 := {
  v2Bucket : string;
  v2AuthType : authType;
  v2AuthResult : APIErrorCode;
  v2Prefix : string;
  v2Token : string;
  v2StartAfter : string;
  v2Delimiter : string;
  v2MaxKeys : Z;
}.

Section Handlers.
Context {E : Type}.

(** The [switch getRequestAuthType(r)] of both handlers: [Some code] when the
    handler writes an error response and returns. *)
Definition checkAuth (t : authType) (result : APIErrorCode) : option APIErrorCode :=
  match t with
  | authTypeUnknown => Some ErrAccessDenied
  | authTypeAnonymous | authTypeSigned | authTypePresigned =>
      if decide (result = ErrNone) then None else Some result
  end.

(** [ListObjectsV1Handler].  [objectAPI] is [api.ObjectAPI()], [None] for
    nil.  The result pairs the response written with the calls made to the
    object layer. *)
Definition ListObjectsV1Handler (objectAPI : option (ObjectLayer E))
  (r : requestV1) : response * list listCall :=
  match objectAPI with
  | None => (ErrorResponse ErrServerNotInitialized, [])
  | Some api =>
      match checkAuth (v1AuthType r) (v1AuthResult r) with
      | Some s3Error => (ErrorResponse s3Error, [])
      | None =>
          let s3Error :=
            listObjectsValidateArgs (v1Prefix r) (v1Marker r) (v1Delimiter r) (v1MaxKeys r) in
          if decide (s3Error = ErrNone) then
            let call := {| callBucket := v1Bucket r; callPrefix := v1Prefix r;
                           callMarker := v1Marker r; callDelimiter := v1Delimiter r;
                           callMaxKeys := v1MaxKeys r |} in
            match @ListObjects E api (v1Bucket r) (v1Prefix r) (v1Marker r)
                    (v1Delimiter r) (v1MaxKeys r) with
            | (_, Some err) => (ErrorResponse (@toAPIErrorCode E api err), [call])
            | (listObjectsInfo, None) => (SuccessResponse listObjectsInfo, [call])
            end
          else (ErrorResponse s3Error, [])
      end
  end.

(** [ListObjectsV2Handler]: the marker is the continuation token, or
    [start-after] when the token is empty. *)
Definition ListObjectsV2Handler (objectAPI : option (ObjectLayer E))
  (r : requestV2) : response * list listCall :=
  match objectAPI with
  | None => (ErrorResponse ErrServerNotInitialized, [])
  | Some api =>
      match checkAuth (v2AuthType r) (v2AuthResult r) with
      | Some s3Error => (ErrorResponse s3Error, [])
      | None =>
          let marker :=
            if String.eqb (v2Token r) "" then v2StartAfter r else v2Token r in
          let s3Error :=
            listObjectsValidateArgs (v2Prefix r) marker (v2Delimiter r) (v2MaxKeys r) in
          if decide (s3Error = ErrNone) then
            let call := {| callBucket := v2Bucket r; callPrefix := v2Prefix r;
                           callMarker := marker; callDelimiter := v2Delimiter r;
                           callMaxKeys := v2MaxKeys r |} in
            match @ListObjects E api (v2Bucket r) (v2Prefix r) marker
                    (v2Delimiter r) (v2MaxKeys r) with
            | (_, Some err) => (ErrorResponse (@toAPIErrorCode E api err), [call])
            | (listObjectsInfo, None) => (SuccessResponse listObjectsInfo, [call])
            end
          else (ErrorResponse s3Error, [])
      end
  end.

End Handlers.

(** An object layer over an empty bucket, used to run the handlers. *)
Definition emptyBucketLayer : ObjectLayer unit := {|
  ListObjects := fun _ _ _ _ _ =>
    ({| IsTruncated := false; NextMarker := ""; Objects := []; Prefixes := [] |}, None);
  toAPIErrorCode := fun _ => ErrOther 0;
|}.

(** *** Properties of the argument check *)

Lemma validate_negative (prefix marker delimiter : string) (maxKeys : Z) :
  (maxKeys < 0)%Z ->
  listObjectsValidateArgs prefix marker delimiter maxKeys = ErrInvalidMaxKeys.
Proof.
  intros H. unfold listObjectsValidateArgs.
  by destruct (Z.ltb_spec maxKeys 0); [|lia].
Qed.

(** Scenario E of the specification. *)
Example validate_star_delimiter :
  listObjectsValidateArgs "" "" "*" 0 = ErrNotImplemented.
Proof. reflexivity. Qed.

Example validate_europe_asia :
  listObjectsValidateArgs "asia" "europe-object" "" 0 = ErrNotImplemented.
Proof. reflexivity. Qed.

Example validate_marker_with_prefix :
  listObjectsValidateArgs "new" "newPrefix0" "" 3 = ErrNone.
Proof. reflexivity. Qed.

(** C1. For a non-negative [maxKeys], [listObjectsValidateArgs] answers
    [ErrNotImplemented] exactly when the delimiter is neither the empty
    string nor "/", or the marker is non-empty and does not start with the
    prefix; in every other case it answers [ErrNone]. *)
Theorem listObjectsValidateArgs_NotImplemented_iff
  (prefix marker delimiter : string) (maxKeys : Z) :
  (0 <= maxKeys)%Z ->
  let rejected :=
    (delimiter <> "" /\ delimiter <> "/")
    \/ (marker <> "" /\ ~ exists rest, marker = prefix ++ rest) in
  (listObjectsValidateArgs prefix marker delimiter maxKeys = ErrNotImplemented
   <-> rejected)
  /\ (~ rejected ->
      listObjectsValidateArgs prefix marker delimiter maxKeys = ErrNone).
Proof.
  intros Hmax rejected. subst rejected.
  unfold listObjectsValidateArgs.
  destruct (Z.ltb_spec maxKeys 0) as [?|_]; [lia|].
  rewrite <- HasPrefix_spec.
  destruct (String.eqb_spec delimiter "") as [Hd1|Hd1];
    destruct (String.eqb_spec delimiter "/") as [Hd2|Hd2];
    destruct (String.eqb_spec marker "") as [Hm|Hm];
    destruct (HasPrefix marker prefix) eqn:Hp; simpl;
    (split; [split|]); try done;
    try (intros [[? ?]|[? ?]]; congruence);
    try (intros _; right; split; congruence);
    try (intros _; left; split; congruence);
    try (intros Hn; exfalso; apply Hn; right; split; congruence);
    try (intros Hn; exfalso; apply Hn; left; split; congruence).
Qed.

Lemma listObjectsValidateArgs_NotImplemented_iff_witness :
  (listObjectsValidateArgs "asia" "europe-object" "" 0 = ErrNotImplemented
   <-> ("" <> "" /\ "" <> "/")
       \/ ("europe-object" <> "" /\ ~ exists rest, "europe-object" = "asia" ++ rest))
  /\ (~ (("" <> "" /\ "" <> "/")
         \/ ("europe-object" <> "" /\ ~ exists rest, "europe-object" = "asia" ++ rest)) ->
      listObjectsValidateArgs "asia" "europe-object" "" 0 = ErrNone).
Proof.
  apply (listObjectsValidateArgs_NotImplemented_iff "asia" "europe-object" "" 0).
  lia.
Defined.

(** *** Negative [maxKeys] at the handlers *)

(** A request that passes authentication and whose other arguments are
    accepted is forwarded to the object layer with [maxKeys] as received. *)
Lemma ListObjectsV1Handler_forwards {E} (api : ObjectLayer E) (r : requestV1) :
  checkAuth (v1AuthType r) (v1AuthResult r) = None ->
  listObjectsValidateArgs (v1Prefix r) (v1Marker r) (v1Delimiter r) (v1MaxKeys r)
    = ErrNone ->
  snd (ListObjectsV1Handler (Some api) r)
  = [ {| callBucket := v1Bucket r; callPrefix := v1Prefix r;
         callMarker := v1Marker r; callDelimiter := v1Delimiter r;
         callMaxKeys := v1MaxKeys r |} ].
Proof.
  intros Hauth Hval. unfold ListObjectsV1Handler. rewrite Hauth, Hval.
  destruct (decide (ErrNone = ErrNone)); [|done].
  by destruct (ListObjects _ _ _ _ _) as [info [err|]].
Qed.

(** The request of test case 19 of [testListObjects], sent through the V1
    handler: existing bucket, no prefix, marker or delimiter, [maxKeys = -1]. *)
Definition negativeMaxKeysRequest : requestV1 := {|
  v1Bucket := "test-bucket-list-object";
  v1AuthType := authTypeSigned;
  v1AuthResult := ErrNone;
  v1Prefix := ""; v1Marker := ""; v1Delimiter := "";
  v1MaxKeys := (-1)%Z;
|}.

(** C2, as stated, fails: the request with [maxKeys = -1] is answered with
    [ErrInvalidMaxKeys] and the object layer is never asked to list, so it
    is not true that every negative [maxKeys] is clamped to 10000 and
    listed. *)
Lemma negative_maxKeys_is_rejected :
  ListObjectsV1Handler (Some emptyBucketLayer) negativeMaxKeysRequest
  = (ErrorResponse ErrInvalidMaxKeys, [])
  /\ ~ (forall r : requestV1,
          (v1MaxKeys r < 0)%Z ->
          checkAuth (v1AuthType r) (v1AuthResult r) = None ->
          exists info call,
            ListObjectsV1Handler (Some emptyBucketLayer) r
            = (SuccessResponse info, [call])
            /\ callMaxKeys call = 10000%Z).
Proof.
  split; [reflexivity|].
  intros H.
  destruct (H negativeMaxKeysRequest) as (info & call & Heq & _);
    [reflexivity | reflexivity | discriminate Heq].
Qed.

(** C2 (amended). A request that reaches either list handler with
    [maxKeys < 0] never reaches the object layer: the handler makes no
    [ListObjects] call and writes an error response, and once the object
    layer is initialised and authentication has passed that error is
    [ErrInvalidMaxKeys], raised by [listObjectsValidateArgs]. *)
Theorem negative_maxKeys_rejected_by_handlers {E}
  (objectAPI : option (ObjectLayer E)) (r1 : requestV1) (r2 : requestV2) :
  (v1MaxKeys r1 < 0)%Z ->
  (v2MaxKeys r2 < 0)%Z ->
  (snd (ListObjectsV1Handler objectAPI r1) = []
   /\ snd (ListObjectsV2Handler objectAPI r2) = [])
  /\ (exists c1 c2,
        fst (ListObjectsV1Handler objectAPI r1) = ErrorResponse c1
        /\ fst (ListObjectsV2Handler objectAPI r2) = ErrorResponse c2
        /\ c1 <> ErrNone /\ c2 <> ErrNone)
  /\ (is_Some objectAPI ->
      checkAuth (v1AuthType r1) (v1AuthResult r1) = None ->
      checkAuth (v2AuthType r2) (v2AuthResult r2) = None ->
      ListObjectsV1Handler objectAPI r1 = (ErrorResponse ErrInvalidMaxKeys, [])
      /\ ListObjectsV2Handler objectAPI r2 = (ErrorResponse ErrInvalidMaxKeys, [])).
Proof.
  intros H1 H2.
  unfold ListObjectsV1Handler, ListObjectsV2Handler.
  destruct objectAPI as [api|].
  2:{ split; [done|]. split; [by exists ErrServerNotInitialized, ErrServerNotInitialized|].
      by intros [? ?]. }
  rewrite (validate_negative _ _ _ _ H1).
  rewrite (validate_negative _ _ _ _ H2).
  assert (Hauth : forall t res c, checkAuth t res = Some c -> c <> ErrNone).
  { intros t res c. unfold checkAuth.
    destruct t; try (destruct (decide (res = ErrNone)); [done|]);
      intros [= <-]; done. }
  destruct (checkAuth (v1AuthType r1) (v1AuthResult r1)) as [c1|] eqn:Ha1;
    destruct (checkAuth (v2AuthType r2) (v2AuthResult r2)) as [c2|] eqn:Ha2;
    simpl; (split; [done|]); (split; [|try done]).
  - exists c1, c2. repeat split; eauto.
  - exists c1, ErrInvalidMaxKeys. repeat split; eauto.
  - exists ErrInvalidMaxKeys, c2. repeat split; eauto.
  - by exists ErrInvalidMaxKeys, ErrInvalidMaxKeys.
Qed.

Lemma negative_maxKeys_rejected_by_handlers_witness :
  ListObjectsV1Handler (Some emptyBucketLayer) negativeMaxKeysRequest
  = (ErrorResponse ErrInvalidMaxKeys, []).
Proof.
  pose (r2 := {| v2Bucket := "test-bucket-list-object";
                 v2AuthType := authTypeAnonymous; v2AuthResult := ErrNone;
                 v2Prefix := ""; v2Token := ""; v2StartAfter := "";
                 v2Delimiter := "/"; v2MaxKeys := (-7)%Z |}).
  refine (proj1 (proj2 (proj2
    (negative_maxKeys_rejected_by_handlers (Some emptyBucketLayer)
       negativeMaxKeysRequest r2 _ _)) _ _ _)).
  - simpl; lia.
  - simpl; lia.
  - by eexists.
  - reflexivity.
  - reflexivity.
Defined.

(** *** More on the argument check and the handlers *)

(** The three answers of [listObjectsValidateArgs] and when each is given:
    a negative [maxKeys] is reported before anything else is looked at. *)
Theorem listObjectsValidateArgs_answers
  (prefix marker delimiter : string) (maxKeys : Z) :
  (listObjectsValidateArgs prefix marker delimiter maxKeys = ErrInvalidMaxKeys
   <-> (maxKeys < 0)%Z)
  /\ (listObjectsValidateArgs prefix marker delimiter maxKeys = ErrNone
      <-> (0 <= maxKeys)%Z
          /\ (delimiter = "" \/ delimiter = "/")
          /\ (marker = "" \/ exists rest, marker = prefix ++ rest))
  /\ (listObjectsValidateArgs prefix marker delimiter maxKeys = ErrInvalidMaxKeys
      \/ listObjectsValidateArgs prefix marker delimiter maxKeys = ErrNotImplemented
      \/ listObjectsValidateArgs prefix marker delimiter maxKeys = ErrNone).
Proof.
  unfold listObjectsValidateArgs.
  rewrite <- HasPrefix_spec.
  destruct (Z.ltb_spec maxKeys 0) as [Hneg|Hpos].
  { split_and!; [split; done | split; [done|lia] | by left]. }
  destruct (String.eqb_spec delimiter "") as [Hd1|Hd1];
    destruct (String.eqb_spec delimiter "/") as [Hd2|Hd2];
    destruct (String.eqb_spec marker "") as [Hm|Hm];
    destruct (HasPrefix marker prefix) eqn:Hp; simpl;
    (split_and!; [split; [done|lia] | split | auto]);
    try done; try (intros _; split_and!; auto; done);
    try (intros (_ & Hdel & Hmark); destruct Hdel as [?|?]; destruct Hmark as [?|?];
         congruence).
Qed.

(** The call the V1 handler makes when it makes one. *)
Definition callOfV1 (r : requestV1) : listCall :=
  {| callBucket := v1Bucket r; callPrefix := v1Prefix r; callMarker := v1Marker r;
     callDelimiter := v1Delimiter r; callMaxKeys := v1MaxKeys r |}.

(** [ListObjectsV1Handler] asks the object layer at most once, with the
    arguments of the request, and only when the object layer is there,
    authentication has passed and the arguments are accepted.  A missing
    object layer is reported before authentication is looked at, and an
    unknown authentication type is answered with [ErrAccessDenied]. *)
Theorem ListObjectsV1Handler_lists_only_when_allowed {E : Type}
  (objectAPI : option (ObjectLayer E)) (r : requestV1) :
  let calls := snd (ListObjectsV1Handler objectAPI r) in
  (calls = [callOfV1 r]
   <-> is_Some objectAPI
       /\ checkAuth (v1AuthType r) (v1AuthResult r) = None
       /\ listObjectsValidateArgs (v1Prefix r) (v1Marker r) (v1Delimiter r)
            (v1MaxKeys r) = ErrNone)
  /\ (calls = [] \/ calls = [callOfV1 r])
  /\ (objectAPI = None ->
      ListObjectsV1Handler objectAPI r = (ErrorResponse ErrServerNotInitialized, []))
  /\ (is_Some objectAPI -> v1AuthType r = authTypeUnknown ->
      ListObjectsV1Handler objectAPI r = (ErrorResponse ErrAccessDenied, [])).
Proof.
  unfold ListObjectsV1Handler, callOfV1.
  destruct objectAPI as [api|]; simpl.
  2:{ split_and!; [|by left|done|by intros [? ?]].
      split; [done|]. by intros [[? ?] _]. }
  destruct (checkAuth (v1AuthType r) (v1AuthResult r)) as [code|] eqn:Hauth; simpl.
  { split_and!; [|by left|done|].
    - split; [done|]. by intros (_ & ? & _).
    - intros _ Hunknown. rewrite Hunknown in Hauth. by injection Hauth as <-. }
  destruct (decide (listObjectsValidateArgs _ _ _ _ = ErrNone)) as [Hval|Hval].
  - destruct (ListObjects _ _ _ _ _) as [info [err|]]; simpl;
      (split_and!; [|by right|done|]);
      try (split; [by intros _; split_and!; eauto|done]);
      intros _ Hunknown; by rewrite Hunknown in Hauth.
  - simpl. split_and!; [|by left|done|].
    + split; [done|]. by intros (_ & _ & ?).
    + intros _ Hunknown. by rewrite Hunknown in Hauth.
Qed.

(** The V1 request that carries what a V2 request asks for: the marker is
    the continuation token, and [start-after] only when there is no token. *)
Definition v1OfV2 (r : requestV2) : requestV1 :=
  {| v1Bucket := v2Bucket r;
     v1AuthType := v2AuthType r;
     v1AuthResult := v2AuthResult r;
     v1Prefix := v2Prefix r;
     v1Marker := if String.eqb (v2Token r) "" then v2StartAfter r else v2Token r;
     v1Delimiter := v2Delimiter r;
     v1MaxKeys := v2MaxKeys r |}.

(** [ListObjectsV2Handler] checks, asks the object layer and answers (error
    code or listing) as [ListObjectsV1Handler] does for the marker chosen
    from the continuation token and [start-after]; with a token present,
    [start-after] has no influence at all. *)
Theorem ListObjectsV2Handler_marker_choice {E : Type}
  (objectAPI : option (ObjectLayer E)) (r : requestV2) :
  ListObjectsV2Handler objectAPI r = ListObjectsV1Handler objectAPI (v1OfV2 r)
  /\ (v2Token r <> "" ->
      forall startAfter,
        ListObjectsV2Handler objectAPI
          {| v2Bucket := v2Bucket r; v2AuthType := v2AuthType r;
             v2AuthResult := v2AuthResult r; v2Prefix := v2Prefix r;
             v2Token := v2Token r; v2StartAfter := startAfter;
             v2Delimiter := v2Delimiter r; v2MaxKeys := v2MaxKeys r |}
        = ListObjectsV2Handler objectAPI r).
Proof.
  split; [done|].
  intros Htok startAfter. unfold ListObjectsV2Handler. simpl.
  by destruct (String.eqb_spec (v2Token r) "").
Qed.

Lemma ListObjectsV2Handler_marker_choice_witness :
  snd (ListObjectsV2Handler (Some emptyBucketLayer)
         {| v2Bucket := "bucket"; v2AuthType := authTypeSigned; v2AuthResult := ErrNone;
            v2Prefix := "new"; v2Token := "newPrefix0"; v2StartAfter := "zzz";
            v2Delimiter := ""; v2MaxKeys := 3 |})
  = [ {| callBucket := "bucket"; callPrefix := "new"; callMarker := "newPrefix0";
         callDelimiter := ""; callMaxKeys := 3 |} ].
Proof.
  refine (eq_trans (f_equal snd
    (proj2 (ListObjectsV2Handler_marker_choice (Some emptyBucketLayer)
              {| v2Bucket := "bucket"; v2AuthType := authTypeSigned;
                 v2AuthResult := ErrNone; v2Prefix := "new"; v2Token := "newPrefix0";
                 v2StartAfter := "aaa"; v2Delimiter := ""; v2MaxKeys := 3%Z |})
       _ "zzz")) _).
  - discriminate.
  - reflexivity.
Defined.

End ListObjectsArgs.

(** * The connection multiplexer (cmd/server-mux.go) *)
Module Mux.

Local Open Scope nat_scope.
Local Open Scope list_scope.

Definition defaultHTTP2Methods : list string := ["PRI"].

Definition defaultHTTP1Methods : list string :=
  ["OPTIONS"; "GET"; "HEAD"; "POST"; "PUT"; "DELETE"; "TRACE"; "CONNECT"].

(** *** The underlying [net.Conn]

    A TCP connection hands out its byte stream in pieces: [pending] lists the
    segments in the order they become readable, and once they are used up
    every read fails with [final] ([EOF] when the peer closed).  As for Go's
    TCP sockets a read returns either bytes and no error, or no byte and an
    error; a read into an empty buffer returns [0, nil]. *)
Inductive netError :=
| EOF
| ErrNet (code : nat).

#[global] Instance netError_eq_dec : EqDecision netError.
Proof. solve_decision. Defined.

Record Conn := {
  pending : list (list byte);
  final : netError;
}.

(** [copy(dst, src)]: the number of bytes copied and [dst] afterwards. *)
Definition copy (dst src : list byte) : nat * list byte :=
  let n := Nat.min (length dst) (length src) in
  (n, take n src ++ drop n dst).
#[global] Arguments copy : simpl never.

Fixpoint readSegments (segs : list (list byte)) (fin : netError) (b : list byte)
  : (list byte * nat * option netError) * list (list byte) :=
  match segs with
  | [] => ((b, 0, Some fin), [])
  | seg :: rest =>
      match seg with
      | [] => readSegments rest fin b
      | _ :: _ =>
          let '(n, b') := copy b seg in
          ((b', n, None), if decide (n < length seg) then drop n seg :: rest else rest)
      end
  end.

(** [c.Read(b)]: the buffer afterwards, [n], the error, and the connection. *)
Definition connRead (c : Conn) (b : list byte)
  : (list byte * nat * option netError) * Conn :=
  match b with
  | [] => ((b, 0, None), c)
  | _ :: _ =>
      let '(r, segs) := readSegments (pending c) (final c) b in
      (r, {| pending := segs; final := final c |})
  end.

(** The bytes the connection still has to deliver. *)
Definition connStream (c : Conn) : list byte := concat (pending c).

(** *** [MuxConn] *)
Record ConnBuf := {
  buffer : list byte;
  unRead : bool;
  offset : nat;
}.

Record MuxConn := {
  conn : Conn;
  lastError : option netError;
  dataBuf : ConnBuf;
}.

(** [longestWord] ignores its argument and measures both default lists. *)
Definition longestWord (strings : list string) : nat :=
  let maxLen :=
    fold_left (fun maxLen m => if decide (maxLen < String.length m)
                               then String.length m else maxLen)
      defaultHTTP1Methods 0 in
  fold_left (fun maxLen m => if decide (maxLen < String.length m)
                             then String.length m else maxLen)
    defaultHTTP2Methods maxLen.

Definition NewMuxConn (c : Conn) : MuxConn :=
  let h1 := longestWord defaultHTTP1Methods in
  let h2 := longestWord defaultHTTP2Methods in
  let max := h1 in
  let max := if decide (max < h2) then h2 else max in
  {| conn := c; lastError := None;
     dataBuf := {| buffer := replicate (max + 1) "000"%byte;
                   unRead := false; offset := 0 |} |}.

(** [PeekProtocol]; the loops over the method lists return at the first
    match, which is [existsb]. *)
Definition PeekProtocol (c : MuxConn) : string * MuxConn :=
  let '((buf, n, err), conn') := connRead (conn c) (buffer (dataBuf c)) in
  let peeked := {| buffer := buf; unRead := unRead (dataBuf c);
                   offset := offset (dataBuf c) |} in
  if decide (n = 0 \/ (err <> None /\ err <> Some EOF)) then
    ("", {| conn := conn'; lastError := err; dataBuf := peeked |})
  else
    let c' := {| conn := conn'; lastError := err;
                 dataBuf := {| buffer := buf; unRead := true;
                               offset := offset (dataBuf c) |} |} in
    if existsb (fun m => HasPrefix (string_of_list_byte buf) m) defaultHTTP1Methods
    then ("http", c')
    else if existsb (fun m => HasPrefix (string_of_list_byte buf) m) defaultHTTP2Methods
    then ("http2", c')
    else ("tls", c').

(** [MuxConn.Read]: the caller's buffer afterwards, [n], the error, and the
    connection. *)
Definition Read (c : MuxConn) (b : list byte)
  : (list byte * nat * option netError) * MuxConn :=
  if unRead (dataBuf c) then
    let '(n, b1) := copy b (drop (offset (dataBuf c)) (buffer (dataBuf c))) in
    let offset' := offset (dataBuf c) + n in
    if decide (offset' = length (buffer (dataBuf c))) then
      let reset := {| buffer := buffer (dataBuf c); unRead := false; offset := 0 |} in
      if decide (n < length b) then
        let tmpBuffer := replicate (length b - n - 1) "000"%byte in
        let '((tmp, nr, err), conn') := connRead (conn c) tmpBuffer in
        let b2 := take n b1 ++ tmp ++ drop (n + length tmp) b1 in
        ((b2, n + nr, err),
         {| conn := conn'; lastError := lastError c; dataBuf := reset |})
      else
        ((b1, n, lastError c),
         {| conn := conn c; lastError := lastError c; dataBuf := reset |})
    else
      ((b1, n, lastError c),
       {| conn := conn c; lastError := lastError c;
          dataBuf := {| buffer := buffer (dataBuf c); unRead := true;
                        offset := offset' |} |})
  else
    let '(r, conn') := connRead (conn c) b in
    (r, {| conn := conn'; lastError := lastError c; dataBuf := dataBuf c |}).

(** The bytes a caller receives from successive [Read]s into fresh buffers
    of the given sizes: each call contributes [b[:n]]. *)
Fixpoint readStream (sizes : list nat) (c : MuxConn) : list byte * MuxConn :=
  match sizes with
  | [] => ([], c)
  | k :: sizes' =>
      let '((b, n, _), c') := Read c (replicate k "000"%byte) in
      let '(out, c'') := readStream sizes' c' in
      (take n b ++ out, c'')
  end.

(** What a [MuxConn] still owes its reader: the unreplayed part of the peek
    buffer, then the connection's stream. *)
Definition remaining (c : MuxConn) : list byte :=
  (if unRead (dataBuf c)
   then drop (offset (dataBuf c)) (buffer (dataBuf c)) else [])
  ++ connStream (conn c).

Definition bytes (s : string) : list byte := list_byte_of_string s.

Example longestWord_is_7 : longestWord [] = 7.
Proof. reflexivity. Qed.

Example NewMuxConn_buffer_8 (c : Conn) :
  length (buffer (dataBuf (NewMuxConn c))) = 8.
Proof. reflexivity. Qed.


(** *** Reading from the connection *)

Lemma copy_spec (dst src : list byte) :
  forall n b, copy dst src = (n, b) ->
  n = Nat.min (length dst) (length src)
  /\ b = take n src ++ drop n dst
  /\ length b = length dst
  /\ take n b = take n src.
Proof.
  intros n b [= <- <-].
  set (n := Nat.min (length dst) (length src)).
  assert (Hn1 : n <= length dst) by (subst n; lia).
  assert (Hn2 : n <= length src) by (subst n; lia).
  split_and!; [done..| |].
  - rewrite length_app, length_take, length_drop. lia.
  - rewrite take_app_le by (rewrite length_take; lia).
    rewrite take_take. f_equal. lia.
Qed.

Lemma readSegments_spec (segs : list (list byte)) (fin : netError) (b : list byte) :
  b <> [] ->
  forall b' n err segs',
  readSegments segs fin b = ((b', n, err), segs') ->
  length b' = length b
  /\ n <= length b
  /\ take n b' = take n (concat segs)
  /\ take n b' ++ concat segs' = concat segs
  /\ b' = take n b' ++ drop n b
  /\ ((n = 0 /\ err = Some fin /\ concat segs = []) \/ (1 <= n /\ err = None)).
Proof.
  intros Hb. induction segs as [|seg rest IH]; intros b' n err segs'; simpl.
  - intros [= <- <- <- <-]. rewrite take_0, drop_0. simpl. split_and!; auto; try lia.
  - destruct seg as [|x seg]; [by apply IH|].
    unfold copy.
    set (k := Nat.min (length b) (length (x :: seg))).
    set (b1 := take k (x :: seg) ++ drop k b).
    intros [= <- <- <- <-].
    destruct (copy_spec b (x :: seg) k b1 eq_refl) as (_ & _ & Hlen & Htake).
    assert (1 <= k).
    { subst k. destruct b; [done|]. simpl. lia. }
    assert (Hk2 : k <= length (x :: seg)) by lia.
    split_and!.
    + done.
    + lia.
    + rewrite Htake.
      change (concat ((x :: seg) :: rest)) with ((x :: seg) ++ concat rest).
      by rewrite take_app_le.
    + rewrite Htake. change (concat ((x :: seg) :: rest)) with ((x :: seg) ++ concat rest).
      case_decide.
      * change (concat (drop k (x :: seg) :: rest)) with (drop k (x :: seg) ++ concat rest).
        by rewrite app_assoc, take_drop.
      * rewrite firstn_all2 by (simpl in *; lia). done.
    + rewrite Htake. done.
    + right. done.
Qed.

Lemma connRead_spec (c : Conn) (b : list byte) :
  forall b' n err c',
  connRead c b = ((b', n, err), c') ->
  length b' = length b
  /\ n <= length b
  /\ take n b' ++ connStream c' = connStream c
  /\ take n b' = take n (connStream c)
  /\ b' = take n b' ++ drop n b
  /\ (1 <= n -> err = None).
Proof.
  intros b' n err c'. unfold connRead, connStream.
  destruct b as [|x b].
  - intros [= <- <- <- <-]. simpl. split_and!; auto; lia.
  - destruct (readSegments _ _ _) as [[[b1 k] e] segs] eqn:Hrd.
    intros [= <- <- <- <-]. simpl.
    apply readSegments_spec in Hrd as (? & ? & ? & ? & ? & Hcase); [|done].
    split_and!; auto.
    destruct Hcase as [(-> & _)|[_ ->]]; [lia|done].
Qed.

(** *** [Read] hands over what the [MuxConn] holds *)

(** One [Read] moves the first [n] bytes of [remaining] into the caller's
    buffer, whatever the buffer size. *)
Lemma Read_remaining (c : MuxConn) (b : list byte) :
  offset (dataBuf c) <= length (buffer (dataBuf c)) ->
  forall b' n err c',
  Read c b = ((b', n, err), c') ->
  take n b' ++ remaining c' = remaining c
  /\ n <= length b
  /\ buffer (dataBuf c') = buffer (dataBuf c)
  /\ offset (dataBuf c') <= length (buffer (dataBuf c')).
Proof.
  intros Hoff b' n err c'. unfold Read, remaining.
  destruct c as [cn le [buf ur off]]; simpl in *.
  destruct ur.
  - unfold copy. rewrite length_drop.
    set (k := Nat.min (length b) (length buf - off)).
    assert (Hk1 : k <= length b) by lia.
    assert (Hk2 : k <= length buf - off) by lia.
    assert (Htk : take k (take k (drop off buf) ++ drop k b) = take k (drop off buf)).
    { rewrite take_app_le by (rewrite length_take, length_drop; lia).
      rewrite take_take. f_equal. lia. }
    case_decide as Hfull.
    + case_decide as Hroom.
      * destruct (connRead cn _) as [[[tmp nr] e] cn'] eqn:Hrd.
        intros [= <- <- <- <-]. simpl.
        apply connRead_spec in Hrd as (Hlt & Hnr & Hstream & _ & _ & _).
        rewrite length_replicate in Hlt, Hnr.
        split_and!; [|lia|done|lia].
        rewrite Htk.
        assert (Hlk : k = length (take k (drop off buf)))
          by (rewrite length_take, length_drop; lia).
        rewrite (take_app_add' _ _ _ _ Hlk).
        rewrite take_app_le by lia.
        rewrite take_ge by (rewrite length_drop; lia).
        by rewrite <- Hstream, app_assoc.
      * intros [= <- <- <- <-]. simpl.
        split_and!; [|lia|done|lia].
        rewrite Htk. rewrite take_ge by (rewrite length_drop; lia). done.
    + intros [= <- <- <- <-]. simpl.
      split_and!; [|lia|done|lia].
      rewrite Htk, app_assoc. f_equal.
      rewrite <- drop_drop. apply take_drop.
  - destruct (connRead cn b) as [[[b1 k] e] cn'] eqn:Hrd.
    intros [= <- <- <- <-]. simpl.
    apply connRead_spec in Hrd as (? & ? & ? & _).
    split_and!; auto.
Qed.

(** Any sequence of [Read]s, of any buffer sizes, returns a prefix of
    [remaining] and leaves the rest to later reads. *)
Lemma readStream_remaining (sizes : list nat) :
  forall c out c',
  offset (dataBuf c) <= length (buffer (dataBuf c)) ->
  readStream sizes c = (out, c') ->
  out ++ remaining c' = remaining c.
Proof.
  induction sizes as [|k sizes IH]; intros c out c' Hoff; simpl.
  - by intros [= <- <-].
  - destruct (Read c _) as [[[b n] e] c1] eqn:Hrd.
    destruct (readStream sizes c1) as [out1 c2] eqn:Hrest.
    intros [= <- <-].
    apply Read_remaining in Hrd as (Hrem & _ & _ & Hoff1); [|done].
    rewrite <- Hrem, <- (IH c1 out1 c2 Hoff1 Hrest).
    by rewrite app_assoc.
Qed.

(** *** What [PeekProtocol] leaves behind *)

Lemma string_of_list_byte_app (a b : list byte) :
  string_of_list_byte (a ++ b)
  = (string_of_list_byte a ++ string_of_list_byte b)%string.
Proof.
  unfold string_of_list_byte.
  induction a as [|x a IH]; [done|].
  simpl. rewrite IH. done.
Qed.

(** No method token contains a NUL character. *)
Definition noNul (m : string) : bool :=
  forallb (fun ch => negb (Ascii.eqb ch zero)) (list_ascii_of_string m).

Lemma string_of_zeros_cons (k : nat) :
  string_of_list_byte (replicate (S k) "000"%byte)
  = String zero (string_of_list_byte (replicate k "000"%byte)).
Proof. done. Qed.

(** Zero padding after the peeked bytes does not change which tokens the
    buffer starts with. *)
Lemma HasPrefix_padding (m s : string) (k : nat) :
  noNul m = true ->
  HasPrefix (s ++ string_of_list_byte (replicate k "000"%byte))%string m
  = HasPrefix s m.
Proof.
  revert s. induction m as [|ch m IH]; intros s Hm.
  - by rewrite !HasPrefix_empty.
  - unfold noNul in Hm. simpl in Hm.
    apply andb_true_iff in Hm as [Hch Hm].
    destruct s as [|a s].
    + change ("" ++ ?x)%string with x.
      rewrite HasPrefix_nil_cons.
      destruct k as [|k]; [done|].
      rewrite string_of_zeros_cons, HasPrefix_cons.
      rewrite Ascii.eqb_sym. by destruct (Ascii.eqb ch zero).
    + change (String a s ++ ?x)%string with (String a (s ++ x)).
      rewrite !HasPrefix_cons. by rewrite IH.
Qed.

Lemma existsb_HasPrefix_padding (ms : list string) (s : string) (k : nat) :
  forallb noNul ms = true ->
  existsb (fun m => HasPrefix (s ++ string_of_list_byte (replicate k "000"%byte)) m) ms
  = existsb (fun m => HasPrefix s m) ms.
Proof.
  induction ms as [|m ms IH]; [done|]; simpl.
  intros [Hm Hms]%andb_true_iff.
  by rewrite HasPrefix_padding, IH.
Qed.

(** A stream that starts with "PRI" starts with no HTTP/1 method. *)
Lemma PRI_excludes_HTTP1 (s : string) :
  HasPrefix s "PRI" = true ->
  existsb (fun m => HasPrefix s m) defaultHTTP1Methods = false.
Proof.
  intros [t ->]%HasPrefix_spec.
  change ("PRI" ++ t)%string with (String "P" (String "R" (String "I" t))).
  unfold defaultHTTP1Methods, existsb.
  rewrite !HasPrefix_cons. done.
Qed.

(** The buffer after the first read: the peeked bytes, then the zeros the
    buffer was allocated with. *)
Lemma peek_buffer (c : Conn) (buf : list byte) (n : nat) (err : option netError) (c' : Conn) :
  connRead c (buffer (dataBuf (NewMuxConn c))) = ((buf, n, err), c') ->
  buf = take n buf ++ replicate (8 - n) "000"%byte
  /\ n <= 8 /\ length buf = 8.
Proof.
  intros Hrd.
  apply connRead_spec in Hrd as (Hlen & Hn & _ & _ & Hbuf & _).
  change (buffer (dataBuf (NewMuxConn c))) with (replicate 8 "000"%byte) in *.
  rewrite length_replicate in Hlen, Hn.
  rewrite drop_replicate in Hbuf. done.
Qed.

(** [PeekProtocol] in terms of the peeked bytes alone. *)
Lemma PeekProtocol_peeked (c : Conn) (buf : list byte) (n : nat)
  (err : option netError) (c' : Conn) :
  connRead c (buffer (dataBuf (NewMuxConn c))) = ((buf, n, err), c') ->
  1 <= n ->
  let peeked := string_of_list_byte (take n buf) in
  fst (PeekProtocol (NewMuxConn c))
  = if existsb (fun m => HasPrefix peeked m) defaultHTTP1Methods then "http"
    else if existsb (fun m => HasPrefix peeked m) defaultHTTP2Methods then "http2"
    else "tls".
Proof.
  intros Hrd Hn peeked.
  destruct (peek_buffer _ _ _ _ _ Hrd) as (Hbuf & _ & _).
  pose proof (connRead_spec _ _ _ _ _ _ Hrd) as (_ & _ & _ & _ & _ & Herr).
  specialize (Herr Hn). subst err.
  unfold PeekProtocol. change (conn (NewMuxConn c)) with c. rewrite Hrd.
  case_decide as Hbad; [destruct Hbad as [?|[? _]]; [lia|done]|].
  assert (Hpad : forall ms, forallb noNul ms = true ->
            existsb (fun m => HasPrefix (string_of_list_byte buf) m) ms
            = existsb (fun m => HasPrefix peeked m) ms).
  { intros ms Hms. subst peeked.
    rewrite <- (existsb_HasPrefix_padding ms
                  (string_of_list_byte (take n buf)) (8 - n)) by done.
    rewrite <- string_of_list_byte_app, <- Hbuf. done. }
  rewrite !Hpad by done.
  by repeat destruct (existsb _ _).
Qed.

(** C9. When the first read of a freshly accepted connection returns at
    least one byte, [PeekProtocol] answers "http" exactly when the peeked
    bytes start with one of the HTTP/1 method tokens, "http2" exactly when
    they start with "PRI", and "tls" in every other case. *)
Theorem PeekProtocol_classifies (c : Conn) (buf : list byte) (n : nat)
  (err : option netError) (c' : Conn) :
  connRead c (buffer (dataBuf (NewMuxConn c))) = ((buf, n, err), c') ->
  1 <= n ->
  let peeked := string_of_list_byte (take n buf) in
  let proto := fst (PeekProtocol (NewMuxConn c)) in
  (proto = "http"
   <-> exists m, In m defaultHTTP1Methods /\ HasPrefix peeked m = true)
  /\ (proto = "http2" <-> HasPrefix peeked "PRI" = true)
  /\ (proto = "tls"
      <-> (~ exists m, In m defaultHTTP1Methods /\ HasPrefix peeked m = true)
          /\ HasPrefix peeked "PRI" <> true).
Proof.
  intros Hrd Hn peeked proto. subst proto.
  rewrite (PeekProtocol_peeked _ _ _ _ _ Hrd Hn). fold peeked.
  rewrite <- existsb_exists.
  pose proof (PRI_excludes_HTTP1 peeked) as Hexcl.
  change (existsb (fun m => HasPrefix peeked m) defaultHTTP2Methods)
    with (HasPrefix peeked "PRI" || false).
  rewrite orb_false_r.
  destruct (existsb _ defaultHTTP1Methods) eqn:H1;
    destruct (HasPrefix peeked "PRI") eqn:H2;
    try (by specialize (Hexcl eq_refl));
    split_and!; split; try done; try (by intros [??]).
Qed.

Lemma PeekProtocol_classifies_witness :
  fst (PeekProtocol (NewMuxConn
         {| pending := [bytes "PRI * HTTP/2.0"]; final := EOF |})) = "http2".
Proof.
  refine (proj2 (proj1 (proj2 (PeekProtocol_classifies
    {| pending := [bytes "PRI * HTTP/2.0"]; final := EOF |}
    (bytes "PRI * HT") 8 None
    {| pending := [bytes "TP/2.0"]; final := EOF |} _ _))) _).
  - reflexivity.
  - lia.
  - reflexivity.
Defined.

(** Scenarios: one connection per protocol. *)
Example peek_http :
  fst (PeekProtocol (NewMuxConn
         {| pending := [bytes "GET / HTTP/1.1"]; final := EOF |})) = "http".
Proof. reflexivity. Qed.

Example peek_tls :
  fst (PeekProtocol (NewMuxConn
         {| pending := [["016"; "003"; "001"; "002"; "000"; "001"; "000"; "001"; "252"]%byte];
            final := EOF |})) = "tls".
Proof. reflexivity. Qed.

Example peek_nothing :
  fst (PeekProtocol (NewMuxConn {| pending := []; final := EOF |})) = "".
Proof. reflexivity. Qed.

(** *** Replaying the peeked bytes *)

(** After a successful peek of [n] bytes the [MuxConn] owes its reader the
    whole 8-byte buffer: the [n] peeked bytes, [8 - n] zero bytes that never
    came from the connection, and then the rest of the stream. *)
Lemma PeekProtocol_remaining (c : Conn) (buf : list byte) (n : nat)
  (err : option netError) (c' : Conn) :
  connRead c (buffer (dataBuf (NewMuxConn c))) = ((buf, n, err), c') ->
  1 <= n ->
  let c1 := snd (PeekProtocol (NewMuxConn c)) in
  remaining c1
  = take n (connStream c) ++ replicate (8 - n) "000"%byte ++ drop n (connStream c)
  /\ offset (dataBuf c1) <= length (buffer (dataBuf c1)).
Proof.
  intros Hrd Hn.
  destruct (peek_buffer _ _ _ _ _ Hrd) as (Hbuf & Hn8 & Hlen).
  pose proof (connRead_spec _ _ _ _ _ _ Hrd) as (_ & _ & Hstream & Htake & _ & Herr).
  specialize (Herr Hn). subst err.
  assert (Hdrop : drop n (connStream c) = connStream c').
  { rewrite <- Hstream. rewrite drop_app_length'; [done|].
    rewrite length_take. lia. }
  unfold PeekProtocol. change (conn (NewMuxConn c)) with c. rewrite Hrd.
  case_decide as Hbad; [destruct Hbad as [?|[? _]]; [lia|done]|].
  assert (Hgoal : remaining
            {| conn := c'; lastError := None;
               dataBuf := {| buffer := buf; unRead := true; offset := 0 |} |}
          = take n (connStream c) ++ replicate (8 - n) "000"%byte
              ++ drop n (connStream c)).
  { unfold remaining; simpl. rewrite drop_0, Hdrop, <- Htake.
    by rewrite Hbuf at 1; rewrite <- app_assoc. }
  by repeat destruct (existsb _ _); simpl; (split; [apply Hgoal|lia]).
Qed.

(** When the first read fills the peek buffer, every sequence of [Read]s
    returns a prefix of the connection's original stream and leaves the rest
    of it to later reads. *)
Lemma full_peek_replays_stream (c : Conn) (buf : list byte) (n : nat)
  (err : option netError) (c' : Conn) (sizes : list nat) :
  connRead c (buffer (dataBuf (NewMuxConn c))) = ((buf, n, err), c') ->
  n = 8 ->
  let '(out, c2) := readStream sizes (snd (PeekProtocol (NewMuxConn c))) in
  out ++ remaining c2 = connStream c.
Proof.
  intros Hrd ->.
  destruct (PeekProtocol_remaining _ _ _ _ _ Hrd) as [Hrem Hoff]; [lia|].
  destruct (readStream sizes _) as [out c2] eqn:Hrs.
  rewrite (readStream_remaining _ _ _ _ Hoff Hrs), Hrem.
  simpl. apply take_drop.
Qed.

(** When the first read returns fewer than 8 bytes, what the reads return
    is a prefix of the original stream with zero bytes inserted after the
    peeked ones. *)
Lemma short_peek_replays_padding (c : Conn) (buf : list byte) (n : nat)
  (err : option netError) (c' : Conn) (sizes : list nat) :
  connRead c (buffer (dataBuf (NewMuxConn c))) = ((buf, n, err), c') ->
  1 <= n < 8 ->
  let '(out, c2) := readStream sizes (snd (PeekProtocol (NewMuxConn c))) in
  out ++ remaining c2
  = take n (connStream c) ++ replicate (8 - n) "000"%byte ++ drop n (connStream c).
Proof.
  intros Hrd Hn.
  destruct (PeekProtocol_remaining _ _ _ _ _ Hrd) as [Hrem Hoff]; [lia|].
  destruct (readStream sizes _) as [out c2] eqn:Hrs.
  by rewrite (readStream_remaining _ _ _ _ Hoff Hrs), Hrem.
Qed.

(** A request whose first five bytes arrive on their own. *)
Definition slowClient : Conn :=
  {| pending := [bytes "GET /"; bytes " HTTP/1.1"]; final := EOF |}.

(** C8 (violated by the code). The bytes returned by [MuxConn.Read] after
    [PeekProtocol] should be the byte stream of the original connection.
    For [slowClient] the peek gets 5 bytes, classifies the connection as
    "http", and the following reads return "GET /", three zero bytes and
    then " HTTP/1.1": not the stream the client sent, for one 32-byte
    buffer as for a run of small ones. *)
Theorem MuxConn_Read_replays_zero_padding :
  connStream slowClient = bytes "GET / HTTP/1.1"
  /\ fst (PeekProtocol (NewMuxConn slowClient)) = "http"
  /\ fst (readStream [32] (snd (PeekProtocol (NewMuxConn slowClient))))
     = bytes "GET /" ++ replicate 3 "000"%byte ++ bytes " HTTP/1.1"
  /\ fst (readStream [3; 3; 3; 0; 4; 5]
            (snd (PeekProtocol (NewMuxConn slowClient))))
     = bytes "GET /" ++ replicate 3 "000"%byte ++ bytes " HTTP/1.1"
  /\ fst (readStream [32] (snd (PeekProtocol (NewMuxConn slowClient))))
     <> connStream slowClient.
Proof. split_and!; [reflexivity..|discriminate]. Qed.

(** With the whole first token in one segment the replay is exact. *)
Example full_peek_example :
  fst (readStream [3; 3; 3; 0; 4; 50]
         (snd (PeekProtocol (NewMuxConn
            {| pending := [bytes "GET / HTTP/1.1"; bytes "xyz"]; final := EOF |}))))
  = bytes "GET / HTTP/1.1".
Proof. reflexivity. Qed.

End Mux.

(** * The storage interface *)
Module Storage.

Record Info := { Info_Total : Z; Info_Free : Z; Info_FSType : string }.
Record VolInfo := { VolName : string; VolCreated : Z }.
Record FileInfo := { FileVolume : string; FileName : string; FileModTime : Z; FileSize : Z }.

(** A Go call either returns or panics. *)
Inductive outcome (A : Type) :=
| Returns (a : A)
| Panics.
#[global] Arguments Returns {A} a.
#[global] Arguments Panics {A}.

(** The [StorageAPI] interface: the twelve methods the RPC server exports,
    over a disk of state [D]; every method yields the disk afterwards.
    [ReadFile] gets the buffer to fill and answers with the byte count, the
    buffer's new contents and the error; it is the one call made under a
    [recover], so it is the one modelled as able to panic. *)
Class StorageAPI (D : Type) := {
  DiskInfo : D -> D * (Info * option error);
  MakeVol : D -> string -> D * option error;
  ListVols : D -> D * (list VolInfo * option error);
  StatVol : D -> string -> D * (VolInfo * option error);
  DeleteVol : D -> string -> D * option error;
  ListDir : D -> string -> string -> D * (list string * option error);
  ReadFile : D -> string -> string -> Z -> list byte
             -> D * outcome (Z * list byte * option error);
  AppendFile : D -> string -> string -> list byte -> D * option error;
  RenameFile : D -> string -> string -> string -> string -> D * option error;
  StatFile : D -> string -> string -> D * (FileInfo * option error);
  DeleteFile : D -> string -> string -> D * option error;
  ReadAll : D -> string -> string -> D * (list byte * option error);
}.

End Storage.

(** * XL bucket operations (cmd/storage-errors.go, second part) *)
Module XL.
Import Storage.

Local Open Scope list_scope.

Record BucketInfo := { Name : string; Created : Z }.

(** What an operation did, in order: the namespace locks it took and
    released, and each storage call with the index of the disk in
    [xl.storageDisks] and the error it answered with. *)
Inductive event :=
| EvRLock (volume path : string)
| EvRUnlock (volume path : string)
| EvLock (volume path : string)
| EvUnlock (volume path : string)
| EvStatVol (index : nat) (volume : string) (err : option error)
| EvListVols (index : nat) (err : option error)
| EvMakeVol (index : nat) (volume : string) (err : option error)
| EvDeleteVol (index : nat) (volume : string) (err : option error)
| EvCleanupDir (index : nat) (volume dirPath : string) (err : option error).

#[global] Instance event_eq_dec : EqDecision event.
Proof. solve_decision. Defined.

(** Functions and constants of the package that the bucket operations use
    and that are defined in other files: they are parameters here. *)
Class ObjectEnv (D : Type) := {
  IsValidBucketName : string -> bool;
  toObjectErr : error -> list string -> error;
  reduceErrs : list (option error) -> list error -> option error;
  cleanupDir : D -> string -> string -> D * option error;
  minioMetaBucket : string;
  mpartMetaPrefix : string;
}.

(** [xlObjects]: the disks ([None] is a nil entry) and the write quorum. *)
Record xlObjects (D : Type) := {
  storageDisks : list (option D);
  writeQuorum : nat;
}.
Arguments storageDisks {D} x.
Arguments writeQuorum {D} x.

(** Modelled from the spec: [isDiskQuorum] is not among the sources; §4.2.1
    step 4 undoes "if successes < writeQuorum", a success being an error
    slot left nil. *)
Definition isDiskQuorum (errs : list (option error)) (minQuorumCount : nat) : bool :=
  let count :=
    fold_left (fun count err => match err with None => S count | Some _ => count end)
      errs 0%nat in
  (minQuorumCount <=? count)%nat.

(** Modelled from the spec: [isErrIgnored] is not among the sources; an
    error is ignorable when it is one of the listed ones (§4.2.1). *)
Definition isErrIgnored (err : error) (ignoredErrs : list error) : bool :=
  bool_decide (err ∈ ignoredErrs).

(** Modelled from the spec: [getLoadBalancedDisks] is not among the sources;
    the glossary describes "a randomly rotated view of the disk sequence".
    [rot] is the random offset; the result lists the disks by index. *)
Definition getLoadBalancedDisks {D} (xl : xlObjects D) (rot : nat) : list nat :=
  rotate rot (seq 0 (length (storageDisks xl))).

Definition bucketMetadataOpIgnoredErrs : list error :=
  [errDiskNotFound; errDiskAccessDenied; errFaultyDisk; errVolumeNotFound].

(** [path.Join] of two clean, non-empty elements. *)
Definition pathJoin (a b : string) : string := (a ++ "/" ++ b)%string.

Section Bucket.
Context {D : Type} `{StorageAPI D} `{ObjectEnv D}.

Definition setDisks (xl : xlObjects D) (disks : list (option D)) : xlObjects D :=
  {| storageDisks := disks; writeQuorum := writeQuorum xl |}.

(** *** The fan-out over [xl.storageDisks]

    One goroutine per disk that is not nil; goroutine [index] touches disk
    [index] and error slot [index] only, so the disks and the slots end up
    the same under every schedule.  The events are listed by disk index.
    [nilErr] is what the loop stores for a nil disk. *)
Fixpoint fanOutFrom (nilErr : option error)
  (body : nat -> D -> D * option error * list event)
  (index : nat) (disks : list (option D))
  : list (option D) * list (option error) * list event :=
  match disks with
  | [] => ([], [], [])
  | disk :: rest =>
      let '(disks', errs, evs) := fanOutFrom nilErr body (S index) rest in
      match disk with
      | None => (None :: disks', nilErr :: errs, evs)
      | Some d =>
          let '(d', err, ev) := body index d in
          (Some d' :: disks', err :: errs, ev ++ evs)
      end
  end.

Definition fanOut (nilErr : option error)
  (body : nat -> D -> D * option error * list event) (xl : xlObjects D)
  : list (option error) * xlObjects D * list event :=
  let '(disks', errs, evs) := fanOutFrom nilErr body 0 (storageDisks xl) in
  (errs, setDisks xl disks', evs).

(** The goroutine of [MakeBucket]. *)
Definition makeVolOn (bucket : string) (index : nat) (disk : D)
  : D * option error * list event :=
  let '(disk', err) := MakeVol disk bucket in
  (disk', err, [EvMakeVol index bucket err]).

(** The goroutine of [DeleteBucket]: the multipart clean-up runs only after
    a successful [DeleteVol], and its [errVolumeNotFound] is not an error. *)
Definition deleteVolOn (bucket : string) (index : nat) (disk : D)
  : D * option error * list event :=
  let '(disk1, err) := DeleteVol disk bucket in
  match err with
  | Some e => (disk1, Some e, [EvDeleteVol index bucket (Some e)])
  | None =>
      let dir := pathJoin minioMetaBucket mpartMetaPrefix in
      let '(disk2, err2) := cleanupDir disk1 dir bucket in
      (disk2,
       match err2 with
       | Some e2 => if decide (e2 = errVolumeNotFound) then None else Some e2
       | None => None
       end,
       [EvDeleteVol index bucket None; EvCleanupDir index dir bucket err2])
  end.

(** [undoMakeBucket]: [DeleteVol] on every disk that is not nil. *)
Definition undoMakeBucket (xl : xlObjects D) (bucket : string)
  : xlObjects D * list event :=
  let '(_, xl', evs) :=
    fanOut None
      (fun index disk =>
         let '(disk', err) := DeleteVol disk bucket in
         (disk', None, [EvDeleteVol index bucket err])) xl in
  (xl', evs).

(** [undoDeleteBucket]: [MakeVol] on every disk that is not nil. *)
Definition undoDeleteBucket (xl : xlObjects D) (bucket : string)
  : xlObjects D * list event :=
  let '(_, xl', evs) :=
    fanOut None
      (fun index disk =>
         let '(disk', err) := MakeVol disk bucket in
         (disk', None, [EvMakeVol index bucket err])) xl in
  (xl', evs).

(** *** [getBucketInfo] and [isBucketExist] *)

(** The loop of [getBucketInfo] over the load-balanced disks; [err] is the
    named result, which keeps the last error assigned. *)
Fixpoint getBucketInfoLoop (bucketName : string) (order : list nat)
  (err : option error) (disks : list (option D))
  : (BucketInfo * option error) * list (option D) * list event :=
  match order with
  | [] => (({| Name := ""; Created := 0 |}, err), disks, [])
  | index :: order' =>
      match disks !! index with
      | Some (Some disk) =>
          let '(disk', (volInfo, err')) := StatVol disk bucketName in
          let disks' := <[index := Some disk']> disks in
          let ev := EvStatVol index bucketName err' in
          match err' with
          | None =>
              (({| Name := VolName volInfo; Created := VolCreated volInfo |}, None),
               disks', [ev])
          | Some e =>
              if isErrIgnored e bucketMetadataOpIgnoredErrs then
                let '(r, disks'', evs) :=
                  getBucketInfoLoop bucketName order' (Some e) disks' in
                (r, disks'', ev :: evs)
              else (({| Name := ""; Created := 0 |}, Some e), disks', [ev])
          end
      | _ => getBucketInfoLoop bucketName order' err disks
      end
  end.

Definition getBucketInfo (xl : xlObjects D) (rot : nat) (bucketName : string)
  : (BucketInfo * option error) * xlObjects D * list event :=
  let '(r, disks', evs) :=
    getBucketInfoLoop bucketName (getLoadBalancedDisks xl rot) None (storageDisks xl) in
  (r, setDisks xl disks', evs).

Definition isBucketExist (xl : xlObjects D) (rot : nat) (bucket : string)
  : bool * xlObjects D * list event :=
  let '((_, err), xl', evs) := getBucketInfo xl rot bucket in
  (match err with Some _ => false | None => true end,
   xl', [EvRLock bucket ""] ++ evs ++ [EvRUnlock bucket ""]).

(** *** [MakeBucket] *)
Definition MakeBucket (xl : xlObjects D) (rot : nat) (bucket : string)
  : option error * xlObjects D * list event :=
  if negb (IsValidBucketName bucket) then (Some (BucketNameInvalid bucket), xl, [])
  else
    let '(found, xl1, evs1) := isBucketExist xl rot bucket in
    if found then (Some (toObjectErr errVolumeExists [bucket]), xl1, evs1)
    else
      let '(dErrs, xl2, evs2) := fanOut (Some errDiskNotFound) (makeVolOn bucket) xl1 in
      if negb (isDiskQuorum dErrs (writeQuorum xl)) then
        let '(xl3, evs3) := undoMakeBucket xl2 bucket in
        (Some (toObjectErr errXLWriteQuorum [bucket]), xl3,
         evs1 ++ [EvLock bucket ""] ++ evs2 ++ evs3 ++ [EvUnlock bucket ""])
      else
        (match reduceErrs dErrs [errDiskNotFound; errFaultyDisk; errDiskAccessDenied] with
         | Some reducedErr => Some (toObjectErr reducedErr [bucket])
         | None => None
         end,
         xl2, evs1 ++ [EvLock bucket ""] ++ evs2 ++ [EvUnlock bucket ""]).

(** *** [DeleteBucket] *)
Definition DeleteBucket (xl : xlObjects D) (rot : nat) (bucket : string)
  : option error * xlObjects D * list event :=
  if negb (IsValidBucketName bucket) then (Some (BucketNameInvalid bucket), xl, [])
  else
    let '(found, xl1, evs1) := isBucketExist xl rot bucket in
    if negb found then (Some (BucketNotFound bucket), xl1, evs1)
    else
      let '(dErrs, xl2, evs2) := fanOut (Some errDiskNotFound) (deleteVolOn bucket) xl1 in
      if negb (isDiskQuorum dErrs (writeQuorum xl)) then
        let '(xl3, evs3) := undoDeleteBucket xl2 bucket in
        (Some (toObjectErr errXLWriteQuorum [bucket]), xl3,
         evs1 ++ [EvLock bucket ""] ++ evs2 ++ evs3 ++ [EvUnlock bucket ""])
      else
        (match reduceErrs dErrs [errFaultyDisk; errDiskNotFound; errDiskAccessDenied] with
         | Some reducedErr => Some (toObjectErr reducedErr [bucket])
         | None => None
         end,
         xl2, evs1 ++ [EvLock bucket ""] ++ evs2 ++ [EvUnlock bucket ""]).

(** The error slots [DeleteBucket] hands to [isDiskQuorum] and
    [reduceErrs]. *)
Definition deleteBucketErrs (xl : xlObjects D) (rot : nat) (bucket : string)
  : list (option error) :=
  (fanOut (Some errDiskNotFound) (deleteVolOn bucket)
     (isBucketExist xl rot bucket).1.2).1.1.

(** *** [listBuckets] and [ListBuckets] *)

(** The inner loop of [listBuckets]: volumes whose name is not a bucket
    name, and the meta volume, are skipped. *)
Definition bucketsOf (volsInfo : list VolInfo) : list BucketInfo :=
  (fun volInfo => {| Name := VolName volInfo; Created := VolCreated volInfo |})
  <$> filter (fun volInfo =>
                IsValidBucketName (VolName volInfo) = true
                /\ VolName volInfo <> minioMetaBucket) volsInfo.

Fixpoint listBucketsLoop (order : list nat) (err : option error)
  (disks : list (option D))
  : (list BucketInfo * option error) * list (option D) * list event :=
  match order with
  | [] => (([], err), disks, [])
  | index :: order' =>
      match disks !! index with
      | Some (Some disk) =>
          let '(disk', (volsInfo, err')) := ListVols disk in
          let disks' := <[index := Some disk']> disks in
          let ev := EvListVols index err' in
          match err' with
          | None =>
              match bucketsOf volsInfo with
              | [] =>
                  let '(r, disks'', evs) := listBucketsLoop order' None disks' in
                  (r, disks'', ev :: evs)
              | bucketsInfo => ((bucketsInfo, None), disks', [ev])
              end
          | Some e =>
              if isErrIgnored e bucketMetadataOpIgnoredErrs then
                let '(r, disks'', evs) := listBucketsLoop order' (Some e) disks' in
                (r, disks'', ev :: evs)
              else (([], Some e), disks', [ev])
          end
      | _ => listBucketsLoop order' err disks
      end
  end.

Definition listBuckets (xl : xlObjects D) (rot : nat)
  : (list BucketInfo * option error) * xlObjects D * list event :=
  let '(r, disks', evs) :=
    listBucketsLoop (getLoadBalancedDisks xl rot) None (storageDisks xl) in
  (r, setDisks xl disks', evs).

(** [byBucketName]: the order [sort.Sort] is given, Go's [<] on the names. *)
Definition byBucketName (a b : BucketInfo) : Prop :=
  String.leb (Name a) (Name b) = true.

#[global] Instance byBucketName_dec : RelDecision byBucketName.
Proof. intros a b. unfold byBucketName. apply _. Defined.

#[global] Instance byBucketName_total : Total byBucketName.
Proof. intros a b. apply String.leb_total. Qed.

(** [sort.Sort] is not stable; any sorting function gives a result it can
    give as long as names do not repeat, and the properties below speak of
    order and content only. *)
Definition ListBuckets (xl : xlObjects D) (rot : nat)
  : (list BucketInfo * option error) * xlObjects D * list event :=
  let '((bucketInfos, err), xl', evs) := listBuckets xl rot in
  match err with
  | Some e => (([], Some (toObjectErr e [])), xl', evs)
  | None => ((merge_sort byBucketName bucketInfos, None), xl', evs)
  end.

End Bucket.

(** *** Reading the events *)

(** The disks on which [MakeVol] returned nil. *)
Definition makeVolSucceeded (evs : list event) : list nat :=
  omap (fun ev => match ev with EvMakeVol index _ None => Some index | _ => None end) evs.

Definition makeVolCalled (evs : list event) : list nat :=
  omap (fun ev => match ev with EvMakeVol index _ _ => Some index | _ => None end) evs.

Definition deleteVolSucceeded (evs : list event) : list nat :=
  omap (fun ev => match ev with EvDeleteVol index _ None => Some index | _ => None end) evs.

Definition deleteVolCalled (evs : list event) : list nat :=
  omap (fun ev => match ev with EvDeleteVol index _ _ => Some index | _ => None end) evs.

(** The disks on which [DeleteVol] and the multipart clean-up both went
    through: the clean-up ended with nil or with [errVolumeNotFound]. *)
Definition cleanupSucceeded (evs : list event) : list nat :=
  omap (fun ev => match ev with
                  | EvCleanupDir index _ _ None => Some index
                  | EvCleanupDir index _ _ (Some e) =>
                      if decide (e = errVolumeNotFound) then Some index else None
                  | _ => None
                  end) evs.

(** The indices of the disks that are not nil. *)
Fixpoint onlineFrom {D} (index : nat) (disks : list (option D)) : list nat :=
  match disks with
  | [] => []
  | None :: rest => onlineFrom (S index) rest
  | Some _ :: rest => index :: onlineFrom (S index) rest
  end.

Definition onlineDisks {D} (xl : xlObjects D) : list nat :=
  onlineFrom 0 (storageDisks xl).

Definition isLockEvent (ev : event) : bool :=
  match ev with EvLock _ _ | EvUnlock _ _ => true | _ => false end.

Definition isMakeVolEvent (ev : event) : bool :=
  match ev with EvMakeVol _ _ _ => true | _ => false end.

Definition isDeleteVolEvent (ev : event) : bool :=
  match ev with EvDeleteVol _ _ _ => true | _ => false end.

(** The events of an existence check: a shared lock and [StatVol] calls. *)
Definition isReadOnlyEvent (ev : event) : bool :=
  match ev with
  | EvRLock _ _ | EvRUnlock _ _ | EvStatVol _ _ _ => true
  | _ => false
  end.

(** *** Disks and an environment to run the operations on

    [simDisk] keeps its volumes in a list and, like the [faultyDisk] of the
    package's tests, can be set to answer [errFaultyDisk] once a number of
    calls has gone through ([sdCalls = None]: never). *)
Record simDisk := {
  sdVols : list VolInfo;
  sdCalls : option nat;
}.

Definition sdFaulty (d : simDisk) : bool :=
  match sdCalls d with Some O => true | _ => false end.

Definition sdTick (d : simDisk) : simDisk :=
  {| sdVols := sdVols d;
     sdCalls := match sdCalls d with Some (S k) => Some k | c => c end |}.

Definition sdHas (d : simDisk) (vol : string) : bool :=
  existsb (fun v => String.eqb (VolName v) vol) (sdVols d).

Definition sdCall {A} (d : simDisk) (failed : A) (run : simDisk -> simDisk * A)
  : simDisk * A :=
  if sdFaulty d then (d, failed) else run (sdTick d).

#[global] Instance simDisk_StorageAPI : StorageAPI simDisk := {|
  DiskInfo d :=
    sdCall d ({| Info_Total := 0; Info_Free := 0; Info_FSType := "" |}, Some errFaultyDisk)
      (fun d => (d, ({| Info_Total := 1024; Info_Free := 1024; Info_FSType := "sim" |}, None)));
  MakeVol d vol :=
    sdCall d (Some errFaultyDisk)
      (fun d => if sdHas d vol then (d, Some errVolumeExists)
                else ({| sdVols := sdVols d ++ [{| VolName := vol; VolCreated := 0 |}];
                         sdCalls := sdCalls d |}, None));
  ListVols d := sdCall d ([], Some errFaultyDisk) (fun d => (d, (sdVols d, None)));
  StatVol d vol :=
    sdCall d ({| VolName := ""; VolCreated := 0 |}, Some errFaultyDisk)
      (fun d => match List.find (fun v => String.eqb (VolName v) vol) (sdVols d) with
                | Some v => (d, (v, None))
                | None => (d, ({| VolName := ""; VolCreated := 0 |}, Some errVolumeNotFound))
                end);
  DeleteVol d vol :=
    sdCall d (Some errFaultyDisk)
      (fun d => if sdHas d vol
                then ({| sdVols := List.filter (fun v => negb (String.eqb (VolName v) vol))
                                     (sdVols d);
                         sdCalls := sdCalls d |}, None)
                else (d, Some errVolumeNotFound));
  ListDir d vol path := sdCall d ([], Some errFaultyDisk) (fun d => (d, ([], None)));
  ReadFile d vol path offset buf :=
    sdCall d (Returns (0%Z, [], Some errFaultyDisk))
      (fun d => (d, Returns (0%Z, [], Some errFileNotFound)));
  AppendFile d vol path buf := sdCall d (Some errFaultyDisk) (fun d => (d, Some errDiskFull));
  RenameFile d srcVol srcPath dstVol dstPath :=
    sdCall d (Some errFaultyDisk) (fun d => (d, Some errFileNotFound));
  StatFile d vol path :=
    sdCall d ({| FileVolume := ""; FileName := ""; FileModTime := 0; FileSize := 0 |},
              Some errFaultyDisk)
      (fun d => (d, ({| FileVolume := ""; FileName := ""; FileModTime := 0; FileSize := 0 |},
                     Some errFileNotFound)));
  DeleteFile d vol path := sdCall d (Some errFaultyDisk) (fun d => (d, Some errFileNotFound));
  ReadAll d vol path := sdCall d ([], Some errFaultyDisk) (fun d => (d, ([], Some errFileNotFound)));
|}.

(** Modelled from the spec: [IsValidBucketName] is not among the sources;
    §3 gives "^[a-z0-9][a-z0-9.\-]{1,61}[a-z0-9]$ with no consecutive dots". *)
Definition isLowerOrDigit (c : ascii) : bool :=
  let n := nat_of_ascii c in
  ((97 <=? n) && (n <=? 122) || (48 <=? n) && (n <=? 57))%nat.

Fixpoint validBucketTail (s : string) : bool :=
  match s with
  | EmptyString => false
  | String c EmptyString => isLowerOrDigit c
  | String c ((String c' _) as rest) =>
      (isLowerOrDigit c || Ascii.eqb c "." || Ascii.eqb c "-")
      && negb (Ascii.eqb c "." && Ascii.eqb c' ".")
      && validBucketTail rest
  end.

Definition validBucketName (bucket : string) : bool :=
  (3 <=? String.length bucket)%nat && (String.length bucket <=? 63)%nat
  && match bucket with
     | EmptyString => false
     | String c rest => isLowerOrDigit c && validBucketTail rest
     end.

(** The modal entry of the error slots that are not ignored, nil included,
    the first such entry on a tie. *)
Definition modalErr (errs : list (option error)) (ignoredErrs : list error)
  : option error :=
  let kept := List.filter (fun err => match err with
                                      | Some e => negb (bool_decide (e ∈ ignoredErrs))
                                      | None => true
                                      end) errs in
  let count err := length (List.filter (fun err' => bool_decide (err' = err)) kept) in
  fold_left (fun best err => if decide (count best < count err)%nat then err else best)
    kept (hd None kept).

(** The environment of the examples. *)
#[global] Instance simEnv : ObjectEnv simDisk := {|
  IsValidBucketName := validBucketName;
  toObjectErr err params :=
    match err, params with
    | errVolumeExists, bucket :: _ => BucketExists bucket
    | errVolumeNotFound, bucket :: _ => BucketNotFound bucket
    | errXLWriteQuorum, _ => InsufficientWriteQuorum
    | errDiskFull, _ => StorageFull
    | _, _ => err
    end;
  reduceErrs := modalErr;
  cleanupDir d volume dirPath := sdCall d (Some errFaultyDisk) (fun d => (d, None));
  minioMetaBucket := ".minio.sys";
  mpartMetaPrefix := "multipart";
|}.

Definition healthy (vols : list string) : option simDisk :=
  Some {| sdVols := (fun v => {| VolName := v; VolCreated := 0 |}) <$> vols;
          sdCalls := None |}.

Definition failingAfter (calls : nat) (vols : list string) : option simDisk :=
  Some {| sdVols := (fun v => {| VolName := v; VolCreated := 0 |}) <$> vols;
          sdCalls := Some calls |}.

Example validBucketName_examples :
  validBucketName "test-bucket-list-object" = true
  /\ validBucketName ".test" = false /\ validBucketName "Test" = false
  /\ validBucketName "---" = false /\ validBucketName "ad" = false
  /\ validBucketName "a..b" = false /\ validBucketName ".minio.sys" = false.
Proof. by vm_compute. Qed.

(** *** Counting successes *)

(** The error slots left nil. *)
Definition successes (errs : list (option error)) : nat :=
  length (filter (fun err => err = None) errs).

Lemma isDiskQuorum_successes (errs : list (option error)) (q : nat) :
  isDiskQuorum errs q = true <-> q <= successes errs.
Proof.
  unfold isDiskQuorum, successes. rewrite Nat.leb_le.
  assert (Hfold : forall acc,
    fold_left (fun count err => match err with None => S count | Some _ => count end)
      errs acc = acc + length (filter (fun err => err = None) errs)).
  { induction errs as [|[e|] errs IH]; intros acc; cbn [fold_left].
    - rewrite filter_nil. simpl. lia.
    - rewrite IH. rewrite filter_cons_False by done. done.
    - rewrite IH. rewrite filter_cons_True by done. simpl. lia. }
  rewrite Hfold. done.
Qed.

Lemma isDiskQuorum_false (errs : list (option error)) (q : nat) :
  isDiskQuorum errs q = false <-> successes errs < q.
Proof.
  pose proof (isDiskQuorum_successes errs q) as Hq.
  destruct (isDiskQuorum errs q); split; intros Hx; try done.
  - assert (q <= successes errs) by by apply Hq. lia.
  - destruct (decide (q <= successes errs)) as [Hle|]; [|lia].
    apply Hq in Hle. done.
Qed.

(** *** Facts about the fan-out *)
Section FanOut.
Context {D : Type}.
Variable nilErr : option error.
Variable body : nat -> D -> D * option error * list event.

Lemma fanOutFrom_online (index : nat) (disks : list (option D)) :
  onlineFrom index (fanOutFrom nilErr body index disks).1.1 = onlineFrom index disks
  /\ length (fanOutFrom nilErr body index disks).1.1 = length disks
  /\ length (fanOutFrom nilErr body index disks).1.2 = length disks.
Proof.
  revert index. induction disks as [|disk rest IH]; intros index; simpl; [done|].
  specialize (IH (S index)).
  destruct (fanOutFrom nilErr body (S index) rest) as [[disks' errs] evs]; simpl in *.
  destruct IH as (IH1 & IH2 & IH3).
  destruct disk as [d|]; simpl.
  - destruct (body index d) as [[d' err] ev]; simpl. rewrite IH1, IH2, IH3. done.
  - rewrite IH1, IH2, IH3. done.
Qed.

(** A projection of the events that yields [sel index] on the events of
    goroutine [index] yields, on all events, the [sel] of the disks that
    are not nil, in order. *)
Lemma fanOutFrom_omap (proj : event -> option nat) (sel : nat -> list nat)
  (index : nat) (disks : list (option D)) :
  (forall i d, omap proj (body i d).2 = sel i) ->
  omap proj (fanOutFrom nilErr body index disks).2
  = concat (sel <$> onlineFrom index disks).
Proof.
  intros Hbody. revert index.
  induction disks as [|disk rest IH]; intros index; simpl; [done|].
  specialize (IH (S index)).
  destruct (fanOutFrom nilErr body (S index) rest) as [[disks' errs] evs]; simpl in *.
  destruct disk as [d|]; simpl; [|done].
  specialize (Hbody index d).
  destruct (body index d) as [[d' err] ev]; simpl in *.
  by rewrite omap_app, Hbody, IH.
Qed.

(** When a nil disk gets an error and goroutine [index] leaves one
    [proj]-event exactly when its slot stays nil, the nil slots are as many
    as the [proj]-events. *)
Lemma fanOutFrom_successes (proj : event -> option nat)
  (index : nat) (disks : list (option D)) :
  nilErr <> None ->
  (forall i d, length (omap proj (body i d).2)
               = if (body i d).1.2 is None then 1 else 0) ->
  successes (fanOutFrom nilErr body index disks).1.2
  = length (omap proj (fanOutFrom nilErr body index disks).2).
Proof.
  intros Hnil Hbody. revert index. unfold successes.
  induction disks as [|disk rest IH]; intros index; simpl; [done|].
  specialize (IH (S index)).
  destruct (fanOutFrom nilErr body (S index) rest) as [[disks' errs] evs]; simpl in *.
  destruct disk as [d|]; simpl.
  - specialize (Hbody index d).
    destruct (body index d) as [[d' err] ev]; simpl in *.
    rewrite omap_app, length_app, Hbody, <- IH.
    destruct err; [by rewrite filter_cons_False|by rewrite filter_cons_True].
  - by rewrite filter_cons_False.
Qed.

End FanOut.

Lemma concat_singletons (l : list nat) : concat ((fun i => [i]) <$> l) = l.
Proof.
  induction l as [|x l IH]; [done|].
  rewrite fmap_cons. cbn [concat app]. by rewrite IH.
Qed.

Lemma concat_nils (l : list nat) : concat ((fun _ => @nil nat) <$> l) = [].
Proof.
  induction l as [|x l IH]; [done|].
  rewrite fmap_cons. cbn [concat app]. by rewrite IH.
Qed.

Lemma onlineFrom_insert {D} (index i : nat) (disks : list (option D)) (d d' : D) :
  disks !! i = Some (Some d) ->
  onlineFrom index (<[i := Some d']> disks) = onlineFrom index disks.
Proof.
  revert index i. induction disks as [|disk rest IH]; intros index i Hi; [done|].
  destruct i as [|i]; simpl in *.
  - by injection Hi as ->.
  - rewrite (IH _ _ Hi). done.
Qed.

Lemma fanOutFrom_Forall {D} (P : event -> Prop) (nilErr : option error)
  (body : nat -> D -> D * option error * list event)
  (index : nat) (disks : list (option D)) :
  (forall i d, Forall P (body i d).2) ->
  Forall P (fanOutFrom nilErr body index disks).2.
Proof.
  intros Hbody. revert index.
  induction disks as [|disk rest IH]; intros index; simpl; [done|].
  specialize (IH (S index)).
  destruct (fanOutFrom nilErr body (S index) rest) as [[disks' errs] evs]; simpl in *.
  destruct disk as [d|]; simpl; [|done].
  specialize (Hbody index d).
  destruct (body index d) as [[d' err] ev]; simpl in *.
  by apply Forall_app.
Qed.

Lemma omap_cons_match {A B} (f : A -> option B) (x : A) (l : list A) :
  omap f (x :: l)
  = match f x with Some y => y :: omap f l | None => omap f l end.
Proof. done. Qed.

(** Projections that skip the exclusive lock's events see only what
    happened before and under the lock. *)
Lemma omap_locked (proj : event -> option nat) (bucket : string)
  (pre mid : list event) :
  proj (EvLock bucket "") = None ->
  proj (EvUnlock bucket "") = None ->
  omap proj (pre ++ EvLock bucket "" :: mid ++ [EvUnlock bucket ""])
  = omap proj pre ++ omap proj mid.
Proof.
  intros Hl Hu.
  rewrite omap_app, omap_cons_match, Hl, omap_app, omap_cons_match, Hu.
  change (omap proj []) with (@nil nat). by rewrite app_nil_r.
Qed.

Lemma omap_none_Forall (proj : event -> option nat) (P : event -> bool)
  (evs : list event) :
  Forall (fun ev => P ev = true) evs ->
  (forall ev, P ev = true -> proj ev = None) ->
  omap proj evs = [].
Proof.
  intros Hall HP. induction Hall as [|ev evs Hev _ IH]; [done|].
  by rewrite omap_cons_match, (HP ev Hev), IH.
Qed.

Lemma makeVolSucceeded_called (evs : list event) :
  makeVolSucceeded evs ⊆ makeVolCalled evs.
Proof.
  induction evs as [|ev evs IH]; [done|].
  unfold makeVolSucceeded, makeVolCalled in *.
  rewrite !omap_cons_match.
  destruct ev as [| | | | | |index vol [e|]| |]; try done.
  - intros x Hx. right. by apply IH.
  - intros x [->|Hx]%elem_of_cons; [left|right; by apply IH].
Qed.

(** *** Facts about the existence check *)
Section Exists.
Context {D : Type} `{StorageAPI D} `{ObjectEnv D}.

Lemma getBucketInfoLoop_facts (bucketName : string) (order : list nat) :
  forall err disks index,
  let r := getBucketInfoLoop bucketName order err disks in
  onlineFrom index r.1.2 = onlineFrom index disks
  /\ Forall (fun ev => isReadOnlyEvent ev = true) r.2.
Proof.
  induction order as [|i order IH]; intros err disks index; simpl; [done|].
  destruct (disks !! i) as [[d|]|] eqn:Hi; try apply IH.
  destruct (StatVol d bucketName) as [d' [volInfo [e|]]]; simpl.
  - destruct (isErrIgnored e bucketMetadataOpIgnoredErrs).
    + specialize (IH (Some e) (<[i:=Some d']> disks) index).
      destruct (getBucketInfoLoop _ _ _ _) as [[r disks''] evs]; simpl in *.
      destruct IH as [IH1 IH2].
      rewrite IH1, (onlineFrom_insert _ _ _ _ _ Hi). split; [done|].
      by constructor.
    + simpl. rewrite (onlineFrom_insert _ _ _ _ _ Hi). split; [done|].
      by repeat constructor.
  - rewrite (onlineFrom_insert _ _ _ _ _ Hi). split; [done|].
    by repeat constructor.
Qed.

(** The existence check changes neither the quorum nor which disks are
    nil, and only takes the shared lock and calls [StatVol]. *)
Lemma isBucketExist_facts (xl : xlObjects D) (rot : nat) (bucket : string) :
  let r := isBucketExist xl rot bucket in
  onlineDisks r.1.2 = onlineDisks xl
  /\ writeQuorum r.1.2 = writeQuorum xl
  /\ Forall (fun ev => isReadOnlyEvent ev = true) r.2.
Proof.
  unfold isBucketExist, getBucketInfo, onlineDisks.
  pose proof (getBucketInfoLoop_facts bucket (getLoadBalancedDisks xl rot)
                None (storageDisks xl) 0) as Hloop.
  destruct (getBucketInfoLoop _ _ _ _) as [[[info err] disks'] evs]; simpl in *.
  destruct Hloop as [Hon Hev].
  split_and!; [done|done|].
  constructor; [done|]. apply Forall_app. split; [done|]. by repeat constructor.
Qed.

End Exists.

(** *** [MakeBucket] *)
Section MakeBucketFacts.
Context {D : Type} `{StorageAPI D} `{ObjectEnv D}.

Lemma makeVolOn_events (bucket : string) (index : nat) (disks : list (option D)) :
  let r := fanOutFrom (Some errDiskNotFound) (makeVolOn bucket) index disks in
  makeVolCalled r.2 = onlineFrom index disks
  /\ successes r.1.2 = length (makeVolSucceeded r.2)
  /\ Forall (fun ev => isMakeVolEvent ev = true) r.2.
Proof.
  split_and!.
  - unfold makeVolCalled.
    rewrite (fanOutFrom_omap _ _ _ (fun i => [i])); [apply concat_singletons|].
    intros i d. unfold makeVolOn. by destruct (MakeVol d bucket).
  - apply fanOutFrom_successes; [done|].
    intros i d. unfold makeVolOn. by destruct (MakeVol d bucket) as [d' [e|]].
  - apply fanOutFrom_Forall.
    intros i d. unfold makeVolOn. destruct (MakeVol d bucket). by repeat constructor.
Qed.

Lemma undoMakeBucket_events (xl : xlObjects D) (bucket : string) :
  deleteVolCalled (undoMakeBucket xl bucket).2 = onlineDisks xl
  /\ Forall (fun ev => isDeleteVolEvent ev = true) (undoMakeBucket xl bucket).2.
Proof.
  unfold undoMakeBucket, fanOut, onlineDisks.
  set (body := fun (index : nat) (disk : D) =>
                 let '(disk', err) := DeleteVol disk bucket in
                 (disk', @None error, [EvDeleteVol index bucket err])).
  pose proof (fanOutFrom_omap None body
    (fun ev => match ev with EvDeleteVol index _ _ => Some index | _ => None end)
    (fun i => [i]) 0 (storageDisks xl)) as Hcalled.
  pose proof (fanOutFrom_Forall (fun ev => isDeleteVolEvent ev = true) None body 0
                (storageDisks xl)) as Hall.
  destruct (fanOutFrom None body 0 (storageDisks xl)) as [[disks' errs] evs]; simpl in *.
  split.
  - unfold deleteVolCalled. rewrite Hcalled; [apply concat_singletons|].
    intros i d. subst body. simpl. by destruct (DeleteVol d bucket).
  - apply Hall. intros i d. subst body. simpl.
    destruct (DeleteVol d bucket). by repeat constructor.
Qed.

(** C10. For a valid bucket name that [isBucketExist] finds, [MakeBucket]
    returns the object error derived from [errVolumeExists]; all it has done
    is the existence check, which takes the shared lock and calls [StatVol]:
    the exclusive lock is not taken and [MakeVol] is called on no disk. *)
Theorem MakeBucket_existing_bucket (xl : xlObjects D) (rot : nat) (bucket : string) :
  IsValidBucketName bucket = true ->
  (isBucketExist xl rot bucket).1.1 = true ->
  let '(err, xl', evs) := MakeBucket xl rot bucket in
  err = Some (toObjectErr errVolumeExists [bucket])
  /\ evs = (isBucketExist xl rot bucket).2
  /\ Forall (fun ev => isLockEvent ev = false /\ isMakeVolEvent ev = false) evs
  /\ makeVolCalled evs = [].
Proof.
  intros Hvalid Hfound. unfold MakeBucket. rewrite Hvalid. simpl.
  pose proof (isBucketExist_facts xl rot bucket) as (_ & _ & Hro).
  destruct (isBucketExist xl rot bucket) as [[found xl1] evs1]; simpl in *.
  subst found. split_and!; [done|done| |].
  - eapply Forall_impl; [exact Hro|]. by intros [].
  - unfold makeVolCalled.
    apply (omap_none_Forall _ isReadOnlyEvent); [done|by intros []].
Qed.

(** C3 (amended). For a valid bucket name that [isBucketExist] does not
    find, when fewer than [writeQuorum] disks answer [MakeVol] with nil,
    [MakeBucket] returns the object error derived from [errXLWriteQuorum]
    after calling [DeleteVol] on every disk that is not nil: on all the
    disks [MakeVol] was called on, those where it succeeded among them.
    Both rounds run under the exclusive lock, the [DeleteVol]s after the
    [MakeVol]s. *)
Theorem MakeBucket_quorum_failure_undoes_every_disk
  (xl : xlObjects D) (rot : nat) (bucket : string)
  (err : option error) (xl' : xlObjects D) (evs : list event) :
  IsValidBucketName bucket = true ->
  (isBucketExist xl rot bucket).1.1 = false ->
  MakeBucket xl rot bucket = (err, xl', evs) ->
  length (makeVolSucceeded evs) < writeQuorum xl ->
  err = Some (toObjectErr errXLWriteQuorum [bucket])
  /\ makeVolCalled evs = onlineDisks xl
  /\ deleteVolCalled evs = onlineDisks xl
  /\ makeVolSucceeded evs ⊆ deleteVolCalled evs
  /\ exists pre mk un,
       evs = pre ++ [EvLock bucket ""] ++ mk ++ un ++ [EvUnlock bucket ""]
       /\ pre = (isBucketExist xl rot bucket).2
       /\ Forall (fun ev => isMakeVolEvent ev = true) mk
       /\ Forall (fun ev => isDeleteVolEvent ev = true) un.
Proof.
  intros Hvalid Hfound. unfold MakeBucket. rewrite Hvalid. simpl.
  pose proof (isBucketExist_facts xl rot bucket) as (Hon1 & Hwq1 & Hro).
  destruct (isBucketExist xl rot bucket) as [[found xl1] evs1]; simpl in *.
  subst found. unfold fanOut.
  pose proof (makeVolOn_events bucket 0 (storageDisks xl1)) as (Hcalled & Hsucc & Hmk).
  destruct (fanOutFrom _ (makeVolOn bucket) 0 (storageDisks xl1))
    as [[disks2 dErrs] evs2] eqn:Hfan; simpl in *.
  pose proof (fanOutFrom_online (Some errDiskNotFound) (makeVolOn bucket) 0
                (storageDisks xl1)) as (Hon2 & _ & _).
  rewrite Hfan in Hon2; simpl in Hon2.
  assert (Hpre : forall proj : event -> option nat,
            (forall ev, isReadOnlyEvent ev = true -> proj ev = None) ->
            omap proj evs1 = []).
  { intros proj Hproj. by apply (omap_none_Forall _ isReadOnlyEvent). }
  destruct (isDiskQuorum dErrs (writeQuorum xl)) eqn:Hq; simpl.
  - (* quorum reached: the hypothesis on the successes cannot hold *)
    intros [= <- <- <-] Hlt. exfalso.
    apply isDiskQuorum_successes in Hq. rewrite Hsucc in Hq.
    revert Hlt. unfold makeVolSucceeded.
    rewrite omap_locked, Hpre by (done || by intros []).
    rewrite app_nil_l. fold (makeVolSucceeded evs2). lia.
  - pose proof (undoMakeBucket_events (setDisks xl1 disks2) bucket) as (Hun & Hdel).
    destruct (undoMakeBucket (setDisks xl1 disks2) bucket) as [xl3 evs3]; simpl in *.
    intros [= <- <- <-] _.
    assert (Hmake : makeVolCalled
              (evs1 ++ EvLock bucket "" :: evs2 ++ evs3 ++ [EvUnlock bucket ""])
            = onlineDisks xl).
    { unfold makeVolCalled. rewrite app_assoc.
      rewrite omap_locked, Hpre, omap_app by (done || by intros []).
      rewrite (omap_none_Forall _ isDeleteVolEvent _ Hdel) by (by intros []).
      rewrite app_nil_l, app_nil_r. fold (makeVolCalled evs2).
      by rewrite Hcalled, <- Hon1. }
    assert (Hdelete : deleteVolCalled
              (evs1 ++ EvLock bucket "" :: evs2 ++ evs3 ++ [EvUnlock bucket ""])
            = onlineDisks xl).
    { unfold deleteVolCalled. rewrite app_assoc.
      rewrite omap_locked, Hpre, omap_app by (done || by intros []).
      rewrite (omap_none_Forall _ isMakeVolEvent _ Hmk) by (by intros []).
      rewrite !app_nil_l. fold (deleteVolCalled evs3).
      rewrite Hun, <- Hon1. unfold onlineDisks. simpl. by rewrite Hon2. }
    split_and!; [done|done|done| |].
    + rewrite Hdelete, <- Hmake. apply makeVolSucceeded_called.
    + by exists evs1, evs2, evs3.
Qed.

End MakeBucketFacts.

(** Four disks, write quorum three; the first is in order and does not have
    the bucket, the other three are faulty. *)
Definition oneDiskLeft : xlObjects simDisk :=
  {| storageDisks := [healthy []; failingAfter 0 []; failingAfter 0 []; failingAfter 0 []];
     writeQuorum := 3 |}.

(** C3, as stated, fails: on [oneDiskLeft], "photos" is a valid name of a
    bucket that does not exist, [MakeVol] succeeds on disk 0 only, and the
    undo calls [DeleteVol] on the disks 0 to 3, not just on disk 0. *)
Lemma MakeBucket_undo_not_only_succeeded :
  let '(err, _, evs) := MakeBucket oneDiskLeft 0 "photos" in
  IsValidBucketName "photos" = true
  /\ (isBucketExist oneDiskLeft 0 "photos").1.1 = false
  /\ length (makeVolSucceeded evs) < writeQuorum oneDiskLeft
  /\ err = Some InsufficientWriteQuorum
  /\ makeVolSucceeded evs = [0]
  /\ deleteVolCalled evs = [0; 1; 2; 3]
  /\ deleteVolCalled evs <> makeVolSucceeded evs.
Proof. vm_compute. split_and!; try done; lia. Qed.

Lemma MakeBucket_quorum_failure_undoes_every_disk_witness :
  deleteVolCalled (MakeBucket oneDiskLeft 0 "photos").2 = [0; 1; 2; 3].
Proof.
  refine (proj1 (proj2 (proj2
    (MakeBucket_quorum_failure_undoes_every_disk oneDiskLeft 0 "photos"
       (MakeBucket oneDiskLeft 0 "photos").1.1
       (MakeBucket oneDiskLeft 0 "photos").1.2
       (MakeBucket oneDiskLeft 0 "photos").2 _ _ _ _)))).
  - reflexivity.
  - reflexivity.
  - reflexivity.
  - vm_compute. lia.
Defined.

(** Two disks that both hold "photos". *)
Definition twoDisks : xlObjects simDisk :=
  {| storageDisks := [healthy ["photos"]; healthy ["photos"; "albums"]];
     writeQuorum := 2 |}.

Lemma MakeBucket_existing_bucket_witness :
  (MakeBucket twoDisks 1 "photos").1.1 = Some (BucketExists "photos")
  /\ (MakeBucket twoDisks 1 "photos").2
     = [EvRLock "photos" ""; EvStatVol 1 "photos" None; EvRUnlock "photos" ""].
Proof.
  pose proof (MakeBucket_existing_bucket twoDisks 1 "photos" eq_refl eq_refl) as Hm.
  destruct (MakeBucket twoDisks 1 "photos") as [[err xl'] evs].
  destruct Hm as (-> & -> & _).
  split; reflexivity.
Defined.

(** *** [DeleteBucket] *)
Section DeleteBucketFacts.
Context {D : Type} `{StorageAPI D} `{ObjectEnv D}.

Lemma fanOutFrom_omap_le (nilErr : option error)
  (body : nat -> D -> D * option error * list event)
  (proj1 proj2 : event -> option nat) (index : nat) (disks : list (option D)) :
  (forall i d, length (omap proj1 (body i d).2) <= length (omap proj2 (body i d).2)) ->
  length (omap proj1 (fanOutFrom nilErr body index disks).2)
  <= length (omap proj2 (fanOutFrom nilErr body index disks).2).
Proof.
  intros Hbody. revert index.
  induction disks as [|disk rest IH]; intros index; simpl; [done|].
  specialize (IH (S index)).
  destruct (fanOutFrom nilErr body (S index) rest) as [[disks' errs] evs]; simpl in *.
  destruct disk as [d|]; simpl; [|done].
  specialize (Hbody index d).
  destruct (body index d) as [[d' err] ev]; simpl in *.
  rewrite !omap_app, !length_app. lia.
Qed.

Lemma deleteVolOn_cases (bucket : string) (index : nat) (d : D) :
  let r := deleteVolOn bucket index d in
  deleteVolCalled r.2 = [index]
  /\ makeVolCalled r.2 = []
  /\ length (cleanupSucceeded r.2) = (if r.1.2 is None then 1 else 0)
  /\ length (cleanupSucceeded r.2) <= length (deleteVolSucceeded r.2).
Proof.
  unfold deleteVolOn.
  destruct (DeleteVol d bucket) as [d1 [e|]]; [split_and!; done|].
  destruct (cleanupDir d1 _ bucket) as [d2 [e2|]]; [|split_and!; done || (simpl; lia)].
  unfold cleanupSucceeded, deleteVolCalled, makeVolCalled, deleteVolSucceeded.
  cbn [fst snd]. rewrite !omap_cons_match.
  destruct (decide (e2 = errVolumeNotFound)); split_and!; done || (simpl; lia).
Qed.

Lemma deleteVolOn_events (bucket : string) (index : nat) (disks : list (option D)) :
  let r := fanOutFrom (Some errDiskNotFound) (deleteVolOn bucket) index disks in
  deleteVolCalled r.2 = onlineFrom index disks
  /\ makeVolCalled r.2 = []
  /\ successes r.1.2 = length (cleanupSucceeded r.2)
  /\ length (cleanupSucceeded r.2) <= length (deleteVolSucceeded r.2).
Proof.
  split_and!.
  - unfold deleteVolCalled.
    rewrite (fanOutFrom_omap _ _ _ (fun i => [i])); [apply concat_singletons|].
    intros i d. apply (deleteVolOn_cases bucket i d).
  - unfold makeVolCalled.
    rewrite (fanOutFrom_omap _ _ _ (fun _ => [])); [apply concat_nils|].
    intros i d. apply (deleteVolOn_cases bucket i d).
  - apply fanOutFrom_successes; [done|].
    intros i d. apply (deleteVolOn_cases bucket i d).
  - apply fanOutFrom_omap_le.
    intros i d. apply (deleteVolOn_cases bucket i d).
Qed.

Lemma undoDeleteBucket_events (xl : xlObjects D) (bucket : string) :
  makeVolCalled (undoDeleteBucket xl bucket).2 = onlineDisks xl
  /\ Forall (fun ev => isMakeVolEvent ev = true) (undoDeleteBucket xl bucket).2.
Proof.
  unfold undoDeleteBucket, fanOut, onlineDisks.
  set (body := fun (index : nat) (disk : D) =>
                 let '(disk', err) := MakeVol disk bucket in
                 (disk', @None error, [EvMakeVol index bucket err])).
  pose proof (fanOutFrom_omap None body
    (fun ev => match ev with EvMakeVol index _ _ => Some index | _ => None end)
    (fun i => [i]) 0 (storageDisks xl)) as Hcalled.
  pose proof (fanOutFrom_Forall (fun ev => isMakeVolEvent ev = true) None body 0
                (storageDisks xl)) as Hall.
  destruct (fanOutFrom None body 0 (storageDisks xl)) as [[disks' errs] evs]; simpl in *.
  split.
  - unfold makeVolCalled. rewrite Hcalled; [apply concat_singletons|].
    intros i d. subst body. simpl. by destruct (MakeVol d bucket).
  - apply Hall. intros i d. subst body. simpl.
    destruct (MakeVol d bucket). by repeat constructor.
Qed.

(** C4 (amended). For a valid bucket name that [isBucketExist] finds,
    [DeleteBucket] calls [DeleteVol] on every disk that is not nil and
    counts a disk as a success when both its [DeleteVol] and the clean-up of
    its multipart directory went through ([errVolumeNotFound] from the
    clean-up being no error).  With fewer than [writeQuorum] such successes,
    so in particular with fewer than [writeQuorum] successful [DeleteVol]s,
    it calls [MakeVol] on every disk that is not nil and returns the object
    error derived from [errXLWriteQuorum].  Otherwise it calls no [MakeVol]
    and returns what [reduceErrs] makes of the error slots with
    [errFaultyDisk], [errDiskNotFound] and [errDiskAccessDenied] ignored:
    that error, as an object error, or nil. *)
Theorem DeleteBucket_quorum (xl : xlObjects D) (rot : nat) (bucket : string)
  (err : option error) (xl' : xlObjects D) (evs : list event) :
  IsValidBucketName bucket = true ->
  (isBucketExist xl rot bucket).1.1 = true ->
  DeleteBucket xl rot bucket = (err, xl', evs) ->
  deleteVolCalled evs = onlineDisks xl
  /\ length (cleanupSucceeded evs) <= length (deleteVolSucceeded evs)
  /\ (length (cleanupSucceeded evs) < writeQuorum xl ->
      err = Some (toObjectErr errXLWriteQuorum [bucket])
      /\ makeVolCalled evs = onlineDisks xl)
  /\ (length (deleteVolSucceeded evs) < writeQuorum xl ->
      err = Some (toObjectErr errXLWriteQuorum [bucket])
      /\ makeVolCalled evs = onlineDisks xl)
  /\ (writeQuorum xl <= length (cleanupSucceeded evs) ->
      makeVolCalled evs = []
      /\ err = (fun reducedErr => toObjectErr reducedErr [bucket])
               <$> reduceErrs (deleteBucketErrs xl rot bucket)
                     [errFaultyDisk; errDiskNotFound; errDiskAccessDenied]).
Proof.
  intros Hvalid Hfound. unfold DeleteBucket, deleteBucketErrs.
  rewrite Hvalid. simpl.
  pose proof (isBucketExist_facts xl rot bucket) as (Hon1 & Hwq1 & Hro).
  destruct (isBucketExist xl rot bucket) as [[found xl1] evs1]; simpl in *.
  subst found. simpl. unfold fanOut.
  pose proof (deleteVolOn_events bucket 0 (storageDisks xl1))
    as (Hcalled & Hnomk & Hsucc & Hle).
  pose proof (fanOutFrom_online (Some errDiskNotFound) (deleteVolOn bucket) 0
                (storageDisks xl1)) as (Hon2 & _ & _).
  destruct (fanOutFrom _ (deleteVolOn bucket) 0 (storageDisks xl1))
    as [[disks2 dErrs] evs2] eqn:Hfan; simpl in *.
  assert (Hpre : forall proj : event -> option nat,
            (forall ev, isReadOnlyEvent ev = true -> proj ev = None) ->
            omap proj evs1 = []).
  { intros proj Hproj. by apply (omap_none_Forall _ isReadOnlyEvent). }
  destruct (isDiskQuorum dErrs (writeQuorum xl)) eqn:Hq; simpl.
  - apply isDiskQuorum_successes in Hq. rewrite Hsucc in Hq.
    intros [= <- <- <-].
    assert (Hcs : cleanupSucceeded (evs1 ++ EvLock bucket "" :: evs2 ++ [EvUnlock bucket ""])
                  = cleanupSucceeded evs2).
    { unfold cleanupSucceeded. by rewrite omap_locked, Hpre by (done || by intros []). }
    assert (Hds : deleteVolSucceeded (evs1 ++ EvLock bucket "" :: evs2 ++ [EvUnlock bucket ""])
                  = deleteVolSucceeded evs2).
    { unfold deleteVolSucceeded. by rewrite omap_locked, Hpre by (done || by intros []). }
    assert (Hmk : makeVolCalled (evs1 ++ EvLock bucket "" :: evs2 ++ [EvUnlock bucket ""])
                  = []).
    { unfold makeVolCalled. rewrite omap_locked, Hpre by (done || by intros []).
      exact Hnomk. }
    rewrite Hcs, Hds. split_and!.
    + unfold deleteVolCalled. rewrite omap_locked, Hpre by (done || by intros []).
      fold (deleteVolCalled evs2). by rewrite app_nil_l, Hcalled, <- Hon1.
    + done.
    + intros ?. lia.
    + intros ?. lia.
    + intros _. split; [done|].
      by destruct (reduceErrs dErrs _).
  - apply isDiskQuorum_false in Hq. rewrite Hsucc in Hq.
    pose proof (undoDeleteBucket_events (setDisks xl1 disks2) bucket) as (Hun & Hmk).
    destruct (undoDeleteBucket (setDisks xl1 disks2) bucket) as [xl3 evs3]; simpl in *.
    intros [= <- <- <-].
    assert (Hnone : forall proj : event -> option nat,
              (forall ev, isMakeVolEvent ev = true -> proj ev = None) ->
              omap proj evs3 = []).
    { intros proj Hproj. by apply (omap_none_Forall _ isMakeVolEvent). }
    assert (Hcs : cleanupSucceeded
                    (evs1 ++ EvLock bucket "" :: evs2 ++ evs3 ++ [EvUnlock bucket ""])
                  = cleanupSucceeded evs2).
    { unfold cleanupSucceeded. rewrite app_assoc.
      rewrite omap_locked, Hpre, omap_app, Hnone by (done || by intros []).
      by rewrite app_nil_l, app_nil_r. }
    assert (Hds : deleteVolSucceeded
                    (evs1 ++ EvLock bucket "" :: evs2 ++ evs3 ++ [EvUnlock bucket ""])
                  = deleteVolSucceeded evs2).
    { unfold deleteVolSucceeded. rewrite app_assoc.
      rewrite omap_locked, Hpre, omap_app, Hnone by (done || by intros []).
      by rewrite app_nil_l, app_nil_r. }
    assert (Hmake : makeVolCalled
                      (evs1 ++ EvLock bucket "" :: evs2 ++ evs3 ++ [EvUnlock bucket ""])
                    = onlineDisks xl).
    { unfold makeVolCalled. rewrite app_assoc.
      rewrite omap_locked, Hpre, omap_app by (done || by intros []).
      fold (makeVolCalled evs2) (makeVolCalled evs3).
      rewrite Hnomk, Hun, <- Hon1. unfold onlineDisks. simpl. by rewrite Hon2. }
    rewrite Hcs, Hds. split_and!.
    + unfold deleteVolCalled. rewrite app_assoc.
      rewrite omap_locked, Hpre, omap_app, Hnone by (done || by intros []).
      fold (deleteVolCalled evs2). by rewrite app_nil_l, app_nil_r, Hcalled, <- Hon1.
    + done.
    + done.
    + done.
    + intros ?. lia.
Qed.

End DeleteBucketFacts.

(** Four disks holding "photos", write quorum three; the last two fail
    after one more call, that is after their [DeleteVol]. *)
Definition twoDisksFailLate : xlObjects simDisk :=
  {| storageDisks := [healthy ["photos"]; healthy ["photos"];
                      failingAfter 1 ["photos"]; failingAfter 1 ["photos"]];
     writeQuorum := 3 |}.

(** C4, as stated, fails: on [twoDisksFailLate] all four [DeleteVol]s
    succeed, which is no fewer than the write quorum, and no error is modal
    among the slots that are not ignored; yet the clean-up fails on two
    disks, and [DeleteBucket] calls [MakeVol] on the four disks and returns
    the write-quorum error. *)
Lemma DeleteBucket_quorum_counts_cleanup :
  let '(err, _, evs) := DeleteBucket twoDisksFailLate 0 "photos" in
  IsValidBucketName "photos" = true
  /\ (isBucketExist twoDisksFailLate 0 "photos").1.1 = true
  /\ deleteVolSucceeded evs = [0; 1; 2; 3]
  /\ writeQuorum twoDisksFailLate <= length (deleteVolSucceeded evs)
  /\ deleteBucketErrs twoDisksFailLate 0 "photos"
     = [None; None; Some errFaultyDisk; Some errFaultyDisk]
  /\ reduceErrs (deleteBucketErrs twoDisksFailLate 0 "photos")
       [errFaultyDisk; errDiskNotFound; errDiskAccessDenied] = None
  /\ err = Some InsufficientWriteQuorum
  /\ makeVolCalled evs = [0; 1; 2; 3].
Proof. vm_compute. split_and!; try done; lia. Qed.

Lemma DeleteBucket_quorum_witness :
  (DeleteBucket twoDisksFailLate 0 "photos").1.1 = Some InsufficientWriteQuorum
  /\ makeVolCalled (DeleteBucket twoDisksFailLate 0 "photos").2 = [0; 1; 2; 3].
Proof.
  refine (proj1 (proj2 (proj2
    (DeleteBucket_quorum twoDisksFailLate 0 "photos"
       (DeleteBucket twoDisksFailLate 0 "photos").1.1
       (DeleteBucket twoDisksFailLate 0 "photos").1.2
       (DeleteBucket twoDisksFailLate 0 "photos").2 _ _ _))) _).
  - reflexivity.
  - reflexivity.
  - reflexivity.
  - vm_compute. lia.
Defined.

(** With every disk in order the bucket goes away on all of them. *)
Example DeleteBucket_all_healthy :
  let '(err, xl', evs) := DeleteBucket twoDisks 0 "photos" in
  err = None /\ makeVolCalled evs = [] /\ deleteVolSucceeded evs = [0; 1].
Proof. by vm_compute. Qed.

(** *** [ListBuckets] *)
Section ListBucketsFacts.
Context {D : Type} `{StorageAPI D} `{ObjectEnv D}.

(** What a disk contributes to a listing: its buckets, when it is not nil,
    answers [ListVols] without error and reports at least one bucket. *)
Definition usableBuckets (disk : option D) : option (list BucketInfo) :=
  match disk with
  | Some d =>
      match (ListVols d).2 with
      | (volsInfo, None) =>
          match bucketsOf volsInfo with
          | [] => None
          | bucketsInfo => Some bucketsInfo
          end
      | (_, Some _) => None
      end
  | None => None
  end.

(** The first disk, in the given order, with something to contribute. *)
Fixpoint firstUsable (order : list nat) (disks : list (option D))
  : option (nat * list BucketInfo) :=
  match order with
  | [] => None
  | index :: order' =>
      match disks !! index ≫= usableBuckets with
      | Some bucketsInfo => Some (index, bucketsInfo)
      | None => firstUsable order' disks
      end
  end.

(** The first disk, in the given order, that is not nil and answers
    [ListVols] without error, with the volumes it reports. *)
Fixpoint firstResponsive (order : list nat) (disks : list (option D))
  : option (nat * list VolInfo) :=
  match order with
  | [] => None
  | index :: order' =>
      match disks !! index with
      | Some (Some d) =>
          match (ListVols d).2 with
          | (volsInfo, None) => Some (index, volsInfo)
          | (_, Some _) => firstResponsive order' disks
          end
      | _ => firstResponsive order' disks
      end
  end.

Lemma bucketsOf_valid (volsInfo : list VolInfo) :
  Forall (fun b => IsValidBucketName (Name b) = true /\ Name b <> minioMetaBucket)
    (bucketsOf volsInfo).
Proof.
  unfold bucketsOf. apply Forall_fmap, Forall_forall.
  intros v [Hv _]%list_elem_of_filter. exact Hv.
Qed.

Lemma firstUsable_spec (order : list nat) (disks : list (option D))
  (index : nat) (bucketsInfo : list BucketInfo) :
  firstUsable order disks = Some (index, bucketsInfo) ->
  index ∈ order
  /\ bucketsInfo <> []
  /\ exists d volsInfo,
       disks !! index = Some (Some d)
       /\ (ListVols d).2 = (volsInfo, None)
       /\ bucketsInfo = bucketsOf volsInfo.
Proof.
  induction order as [|i order IH]; simpl; [done|].
  destruct (disks !! i ≫= usableBuckets) as [bs|] eqn:Hi.
  - intros [= <- <-]. split; [left|].
    destruct (disks !! i) as [[d|]|] eqn:Hd; simpl in Hi; try done.
    destruct (ListVols d).2 as [volsInfo [e|]] eqn:Hl; [done|].
    destruct (bucketsOf volsInfo) as [|b bs'] eqn:Hb; [done|].
    injection Hi as <-. split; [done|].
    exists d, volsInfo. by rewrite Hb.
  - intros Hrest. destruct (IH Hrest) as (? & ? & ?). split; [by right|done].
Qed.

(** On success the loop of [listBuckets] returns the buckets of the first
    usable disk, or nothing when there is none.  Each disk is asked at most
    once, so its answer is the one of the disk as it was at the start. *)
Lemma listBucketsLoop_first_usable (disks0 : list (option D)) (order : list nat) :
  forall err disks bucketsInfo disks' evs,
  NoDup order ->
  (forall i, i ∈ order -> disks !! i = disks0 !! i) ->
  listBucketsLoop order err disks = ((bucketsInfo, None), disks', evs) ->
  bucketsInfo = default [] (snd <$> firstUsable order disks0).
Proof.
  induction order as [|index order IH];
    intros err disks bucketsInfo disks' evs Hnd Hsame;
    cbn [listBucketsLoop firstUsable].
  - by intros [= <- -> <- <-].
  - apply NoDup_cons in Hnd as [Hnotin Hnd].
    rewrite <- (Hsame index) by left.
    assert (Hrest : forall d', forall i, i ∈ order ->
              (<[index := Some d']> disks) !! i = disks0 !! i).
    { intros d' i Hi. rewrite list_lookup_insert_ne by (intros ->; done).
      apply Hsame. by right. }
    destruct (disks !! index) as [[d|]|] eqn:Hd; simpl.
    + destruct (ListVols d) as [d' [volsInfo [e|]]] eqn:Hl; simpl.
      * destruct (isErrIgnored e bucketMetadataOpIgnoredErrs); [|done].
        destruct (listBucketsLoop order (Some e) _) as [[r disks''] evs'] eqn:Hloop.
        intros [= -> <- <-].
        eapply IH; [exact Hnd|apply (Hrest d')|exact Hloop].
      * destruct (bucketsOf volsInfo) as [|b bs] eqn:Hb.
        -- destruct (listBucketsLoop order None _) as [[r disks''] evs'] eqn:Hloop.
           intros [= -> <- <-].
           eapply IH; [exact Hnd|apply (Hrest d')|exact Hloop].
        -- by intros [= <- <- <-].
    + intros Hloop. eapply IH; [done| |exact Hloop].
      intros i Hi. apply Hsame. by right.
    + intros Hloop. eapply IH; [done| |exact Hloop].
      intros i Hi. apply Hsame. by right.
Qed.

Lemma getLoadBalancedDisks_NoDup (xl : xlObjects D) (rot : nat) :
  NoDup (getLoadBalancedDisks xl rot).
Proof.
  unfold getLoadBalancedDisks, rotate.
  set (l := seq 0 (length (storageDisks xl))).
  assert (Hperm : drop (rot `mod` length l) l ++ take (rot `mod` length l) l ≡ₚ l).
  { rewrite Permutation_app_comm. by rewrite take_drop. }
  rewrite Hperm. apply NoDup_ListNoDup, List.seq_NoDup.
Qed.

(** C5 (amended). The list of a successful [ListBuckets] is sorted by
    bucket name, holds only valid bucket names other than the meta volume,
    and is a rearrangement of the valid, non-meta volumes reported by the
    first load-balanced disk that is not nil, answers [ListVols] without
    error and reports at least one such volume; it is empty when no disk
    does. *)
Theorem ListBuckets_sorted_first_usable (xl : xlObjects D) (rot : nat)
  (bucketInfos : list BucketInfo) (xl' : xlObjects D) (evs : list event) :
  ListBuckets xl rot = ((bucketInfos, None), xl', evs) ->
  Sorted byBucketName bucketInfos
  /\ Forall (fun b => IsValidBucketName (Name b) = true
                      /\ Name b <> minioMetaBucket) bucketInfos
  /\ match firstUsable (getLoadBalancedDisks xl rot) (storageDisks xl) with
     | None => bucketInfos = []
     | Some (index, found) =>
         bucketInfos ≡ₚ found
         /\ found <> []
         /\ exists d volsInfo,
              storageDisks xl !! index = Some (Some d)
              /\ (ListVols d).2 = (volsInfo, None)
              /\ found = bucketsOf volsInfo
     end.
Proof.
  unfold ListBuckets, listBuckets.
  destruct (listBucketsLoop _ None (storageDisks xl)) as [[[bs err] disks'] evs0] eqn:Hloop.
  destruct err as [e|]; [done|].
  intros [= <- <- <-].
  apply (listBucketsLoop_first_usable (storageDisks xl)) in Hloop;
    [|apply getLoadBalancedDisks_NoDup|done].
  split; [apply Sorted_merge_sort; apply _|].
  destruct (firstUsable _ _) as [[index found]|] eqn:Hfirst; simpl in Hloop; subst bs.
  - apply firstUsable_spec in Hfirst as (_ & Hne & d & volsInfo & Hd & Hl & ->).
    split.
    + rewrite merge_sort_Permutation. apply bucketsOf_valid.
    + split; [apply merge_sort_Permutation|]. split; [done|]. by exists d, volsInfo.
  - done.
Qed.

End ListBucketsFacts.

(** Two disks; the first reports the meta volume only. *)
Definition firstDiskEmpty : xlObjects simDisk :=
  {| storageDisks := [healthy [".minio.sys"]; healthy [".minio.sys"; "photos"; "albums"]];
     writeQuorum := 2 |}.

(** C5, as stated, fails: on [firstDiskEmpty] the first responsive disk is
    disk 0, none of whose volumes is a bucket, and the successful listing
    holds the two buckets of disk 1. *)
Lemma ListBuckets_skips_disk_without_buckets :
  let '((bucketInfos, err), _, _) := ListBuckets firstDiskEmpty 0 in
  err = None
  /\ firstResponsive (getLoadBalancedDisks firstDiskEmpty 0) (storageDisks firstDiskEmpty)
     = Some (0, [{| VolName := ".minio.sys"; VolCreated := 0 |}])
  /\ bucketsOf [{| VolName := ".minio.sys"; VolCreated := 0 |}] = []
  /\ Name <$> bucketInfos = ["albums"; "photos"]
  /\ ~ bucketInfos ≡ₚ bucketsOf [{| VolName := ".minio.sys"; VolCreated := 0 |}].
Proof.
  vm_compute. split_and!; try done.
  intros Hperm. apply Permutation_length in Hperm. done.
Qed.

Lemma ListBuckets_sorted_first_usable_witness :
  Sorted byBucketName (ListBuckets firstDiskEmpty 0).1.1.1.
Proof.
  refine (proj1 (ListBuckets_sorted_first_usable firstDiskEmpty 0
                   (ListBuckets firstDiskEmpty 0).1.1.1
                   (ListBuckets firstDiskEmpty 0).1.2
                   (ListBuckets firstDiskEmpty 0).2 _)).
  reflexivity.
Defined.

(** *** The rest of the bucket operations *)
Section MoreBucket.
Context {D : Type} `{StorageAPI D} `{ObjectEnv D}.

(** [GetBucketInfo]: the name check, then [getBucketInfo] under the shared
    lock. *)
Definition GetBucketInfo (xl : xlObjects D) (rot : nat) (bucket : string)
  : (BucketInfo * option error) * xlObjects D * list event :=
  if negb (IsValidBucketName bucket)
  then (({| Name := ""; Created := 0 |}, Some (BucketNameInvalid bucket)), xl, [])
  else
    let '((bucketInfo, err), xl', evs) := getBucketInfo xl rot bucket in
    let evs' := [EvRLock bucket ""] ++ evs ++ [EvRUnlock bucket ""] in
    match err with
    | Some e => (({| Name := ""; Created := 0 |}, Some (toObjectErr e [bucket])), xl', evs')
    | None => ((bucketInfo, None), xl', evs')
    end.

(** The error slots [MakeBucket] hands to [isDiskQuorum] and [reduceErrs]. *)
Definition makeBucketErrs (xl : xlObjects D) (rot : nat) (bucket : string)
  : list (option error) :=
  (fanOut (Some errDiskNotFound) (makeVolOn bucket)
     (isBucketExist xl rot bucket).1.2).1.1.

End MoreBucket.

(** More ways to read the events. *)
Definition statVolCalled (evs : list event) : list nat :=
  omap (fun ev => match ev with EvStatVol index _ _ => Some index | _ => None end) evs.

Definition listVolsCalled (evs : list event) : list nat :=
  omap (fun ev => match ev with EvListVols index _ => Some index | _ => None end) evs.

Definition cleanupCalled (evs : list event) : list nat :=
  omap (fun ev => match ev with EvCleanupDir index _ _ _ => Some index | _ => None end) evs.

Definition isStatVolEvent (ev : event) : bool :=
  match ev with EvStatVol _ _ _ => true | _ => false end.

Definition isListVolsEvent (ev : event) : bool :=
  match ev with EvListVols _ _ => true | _ => false end.

(** The storage calls that change a disk. *)
Definition isMutationEvent (ev : event) : bool :=
  match ev with
  | EvMakeVol _ _ _ | EvDeleteVol _ _ _ | EvCleanupDir _ _ _ _ => true
  | _ => false
  end.

(** Whether disk [index] is there. *)
Definition isOnline {D} (disks : list (option D)) (index : nat) : bool :=
  match disks !! index with Some (Some _) => true | _ => false end.

(** Which entries of the disk list are nil. *)
Definition layout {D} (disks : list (option D)) : list bool :=
  (fun disk => match disk with Some _ => true | None => false end) <$> disks.

(** A [StatVol] on [bucket] answered with an ignorable error. *)
Definition isIgnoredStatVol (bucket : string) (ev : event) : Prop :=
  exists index e, ev = EvStatVol index bucket (Some e)
                  /\ isErrIgnored e bucketMetadataOpIgnoredErrs = true.

Section MoreBucketFacts.
Context {D : Type} `{StorageAPI D} `{ObjectEnv D}.

Lemma isOnline_insert (disks : list (option D)) (index : nat) (d d' : D) (i : nat) :
  disks !! index = Some (Some d) ->
  isOnline (<[index := Some d']> disks) i = isOnline disks i.
Proof.
  intros Hd. unfold isOnline.
  destruct (decide (i = index)) as [->|Hne].
  - rewrite list_lookup_insert_eq by (by eapply lookup_lt_Some). by rewrite Hd.
  - by rewrite list_lookup_insert_ne.
Qed.

Lemma filter_isOnline_insert (disks : list (option D)) (index : nat) (d d' : D)
  (order : list nat) :
  disks !! index = Some (Some d) ->
  List.filter (isOnline (<[index := Some d']> disks)) order
  = List.filter (isOnline disks) order.
Proof.
  intros Hd. apply List.filter_ext. intros i. by eapply isOnline_insert.
Qed.

(** *** Invalid names *)

(** A bucket name that [IsValidBucketName] refuses is answered with
    [BucketNameInvalid] by [MakeBucket], [DeleteBucket] and [GetBucketInfo]
    alike, before any lock is taken or any disk is asked. *)
Theorem invalid_bucket_name_touches_nothing
  (xl : xlObjects D) (rot : nat) (bucket : string) :
  IsValidBucketName bucket = false ->
  MakeBucket xl rot bucket = (Some (BucketNameInvalid bucket), xl, [])
  /\ DeleteBucket xl rot bucket = (Some (BucketNameInvalid bucket), xl, [])
  /\ (GetBucketInfo xl rot bucket).1.1.2 = Some (BucketNameInvalid bucket)
  /\ (GetBucketInfo xl rot bucket).1.2 = xl
  /\ (GetBucketInfo xl rot bucket).2 = [].
Proof.
  intros Hinvalid. unfold MakeBucket, DeleteBucket, GetBucketInfo.
  by rewrite Hinvalid.
Qed.

(** *** [getBucketInfo] *)

(** The walk of [getBucketInfo]: the disks that are there are asked in the
    load-balanced order, each answer but the last an ignorable error; the
    walk ends on the first [StatVol] that succeeds (its volume is the
    result), on the first error that is not ignorable (it is the result), or
    when the disks run out (the result is the last error seen, nil if no
    disk was asked). *)
Lemma getBucketInfoLoop_walk (bucketName : string) (order : list nat) :
  forall err disks,
  let r := getBucketInfoLoop bucketName order err disks in
  statVolCalled r.2 `prefix_of` List.filter (isOnline disks) order
  /\ exists skipped final,
       r.2 = skipped ++ final
       /\ Forall (isIgnoredStatVol bucketName) skipped
       /\ ((final = []
            /\ r.1.1.2 = last (err :: omap (fun ev => match ev with
                                                     | EvStatVol _ _ e => Some e
                                                     | _ => None
                                                     end) skipped)
                         ≫= id
            /\ statVolCalled r.2 = List.filter (isOnline disks) order)
           \/ (exists index, final = [EvStatVol index bucketName None]
                             /\ r.1.1.2 = None)
           \/ (exists index e, final = [EvStatVol index bucketName (Some e)]
                               /\ isErrIgnored e bucketMetadataOpIgnoredErrs = false
                               /\ r.1.1.2 = Some e)).
Proof.
  induction order as [|i order IH]; intros err disks; cbn [getBucketInfoLoop].
  - split; [done|]. exists [], []. split_and!; [done|done|]. left. done.
  - unfold isOnline at 1. cbn [List.filter]. unfold isOnline at 1.
    destruct (disks !! i) as [[d|]|] eqn:Hi; try apply IH.
    destruct (StatVol d bucketName) as [d' [volInfo [e|]]]; cbn [fst snd].
    + destruct (isErrIgnored e bucketMetadataOpIgnoredErrs) eqn:Hign.
      * specialize (IH (Some e) (<[i:=Some d']> disks)).
        rewrite (filter_isOnline_insert _ _ _ _ _ Hi) in IH.
        destruct (getBucketInfoLoop _ _ _ _) as [[r disks''] evs]; cbn [fst snd] in *.
        destruct IH as (Hpre & skipped & final & -> & Hsk & Hfin).
        split.
        { unfold statVolCalled in *. rewrite omap_cons_match. by apply prefix_cons. }
        exists (EvStatVol i bucketName (Some e) :: skipped), final.
        split_and!; [done| |].
        { constructor; [|done]. by exists i, e. }
        destruct Hfin as [(-> & Herr & Hall)|[Hok|Hbad]].
        -- left. split_and!; [done| |].
           ++ rewrite Herr. rewrite omap_cons_match.
              by rewrite (last_cons_cons err).
           ++ change (statVolCalled (EvStatVol i bucketName (Some e) :: skipped ++ []))
                with (i :: statVolCalled (skipped ++ [])).
              by rewrite Hall.
        -- right. by left.
        -- right. by right.
      * split.
        { change (statVolCalled [EvStatVol i bucketName (Some e)]) with [i].
          apply prefix_cons, prefix_nil. }
        exists [], [EvStatVol i bucketName (Some e)].
        split_and!; [done|done|]. right. right. by exists i, e.
    + split.
      { change (statVolCalled [EvStatVol i bucketName None]) with [i].
        apply prefix_cons, prefix_nil. }
      exists [], [EvStatVol i bucketName None].
      split_and!; [done|done|]. right. left. by exists i.
Qed.

(** *** [DeleteBucket] of a bucket that is not there *)

(** For a valid bucket name that [isBucketExist] does not find,
    [DeleteBucket] returns [BucketNotFound]; all it has done is the
    existence check: no exclusive lock, no [DeleteVol], no clean-up, no
    [MakeVol]. *)
Theorem DeleteBucket_missing_bucket (xl : xlObjects D) (rot : nat) (bucket : string) :
  IsValidBucketName bucket = true ->
  (isBucketExist xl rot bucket).1.1 = false ->
  (DeleteBucket xl rot bucket).1.1 = Some (BucketNotFound bucket)
  /\ (DeleteBucket xl rot bucket).2 = (isBucketExist xl rot bucket).2
  /\ Forall (fun ev => isLockEvent ev = false /\ isMutationEvent ev = false)
       (DeleteBucket xl rot bucket).2.
Proof.
  intros Hvalid Hfound. unfold DeleteBucket. rewrite Hvalid. simpl.
  pose proof (isBucketExist_facts xl rot bucket) as (_ & _ & Hro).
  destruct (isBucketExist xl rot bucket) as [[found xl1] evs1]; simpl in *.
  subst found. simpl. split_and!; [done|done|].
  eapply Forall_impl; [exact Hro|]. by intros [].
Qed.

(** *** [MakeBucket] with a quorum *)

(** For a valid bucket name that [isBucketExist] does not find, when at
    least [writeQuorum] disks answer [MakeVol] with nil, [MakeBucket] calls
    [MakeVol] once on every disk that is not nil and [DeleteVol] on none,
    and returns what [reduceErrs] makes of the error slots with
    [errDiskNotFound], [errFaultyDisk] and [errDiskAccessDenied] ignored:
    that error, as an object error, or nil. *)
Theorem MakeBucket_with_quorum (xl : xlObjects D) (rot : nat) (bucket : string)
  (err : option error) (xl' : xlObjects D) (evs : list event) :
  IsValidBucketName bucket = true ->
  (isBucketExist xl rot bucket).1.1 = false ->
  MakeBucket xl rot bucket = (err, xl', evs) ->
  writeQuorum xl <= length (makeVolSucceeded evs) ->
  makeVolCalled evs = onlineDisks xl
  /\ deleteVolCalled evs = []
  /\ err = (fun reducedErr => toObjectErr reducedErr [bucket])
           <$> reduceErrs (makeBucketErrs xl rot bucket)
                 [errDiskNotFound; errFaultyDisk; errDiskAccessDenied].
Proof.
  intros Hvalid Hfound. unfold MakeBucket, makeBucketErrs. rewrite Hvalid. simpl.
  pose proof (isBucketExist_facts xl rot bucket) as (Hon1 & Hwq1 & Hro).
  destruct (isBucketExist xl rot bucket) as [[found xl1] evs1]; simpl in *.
  subst found. unfold fanOut.
  pose proof (makeVolOn_events bucket 0 (storageDisks xl1)) as (Hcalled & Hsucc & Hmk).
  destruct (fanOutFrom _ (makeVolOn bucket) 0 (storageDisks xl1))
    as [[disks2 dErrs] evs2] eqn:Hfan; simpl in *.
  assert (Hpre : forall proj : event -> option nat,
            (forall ev, isReadOnlyEvent ev = true -> proj ev = None) ->
            omap proj evs1 = []).
  { intros proj Hproj. by apply (omap_none_Forall _ isReadOnlyEvent). }
  destruct (isDiskQuorum dErrs (writeQuorum xl)) eqn:Hq; simpl.
  - intros [= <- <- <-] _. split_and!.
    + unfold makeVolCalled. rewrite omap_locked, Hpre by (done || by intros []).
      fold (makeVolCalled evs2). by rewrite app_nil_l, Hcalled, <- Hon1.
    + unfold deleteVolCalled. rewrite omap_locked, Hpre by (done || by intros []).
      rewrite app_nil_l. by apply (omap_none_Forall _ isMakeVolEvent); [|intros []].
    + by destruct (reduceErrs dErrs _).
  - apply isDiskQuorum_false in Hq. rewrite Hsucc in Hq.
    pose proof (undoMakeBucket_events (setDisks xl1 disks2) bucket) as (Hun & Hdel).
    destruct (undoMakeBucket (setDisks xl1 disks2) bucket) as [xl3 evs3]; simpl in *.
    intros [= <- <- <-] Hle. exfalso.
    revert Hle. unfold makeVolSucceeded. rewrite app_assoc.
    rewrite omap_locked, Hpre, omap_app by (done || by intros []).
    rewrite (omap_none_Forall _ isDeleteVolEvent _ Hdel) by (by intros []).
    rewrite app_nil_l, app_nil_r. fold (makeVolSucceeded evs2). lia.
Qed.

(** *** [DeleteBucket] cleans up where it deleted *)

Lemma fanOutFrom_omap_eq (nilErr : option error)
  (body : nat -> D -> D * option error * list event)
  (proj1 proj2 : event -> option nat) (index : nat) (disks : list (option D)) :
  (forall i d, omap proj1 (body i d).2 = omap proj2 (body i d).2) ->
  omap proj1 (fanOutFrom nilErr body index disks).2
  = omap proj2 (fanOutFrom nilErr body index disks).2.
Proof.
  intros Hbody. revert index.
  induction disks as [|disk rest IH]; intros index; simpl; [done|].
  specialize (IH (S index)).
  destruct (fanOutFrom nilErr body (S index) rest) as [[disks' errs] evs]; simpl in *.
  destruct disk as [d|]; simpl; [|done].
  specialize (Hbody index d).
  destruct (body index d) as [[d' err] ev]; simpl in *.
  by rewrite !omap_app, Hbody, IH.
Qed.

(** Whatever its outcome, [DeleteBucket] runs the multipart clean-up on
    exactly the disks whose [DeleteVol] returned nil, once each: never on a
    disk that still has the volume. *)
Theorem DeleteBucket_cleans_where_deleted (xl : xlObjects D) (rot : nat)
  (bucket : string) :
  cleanupCalled (DeleteBucket xl rot bucket).2
  = deleteVolSucceeded (DeleteBucket xl rot bucket).2.
Proof.
  unfold DeleteBucket.
  destruct (IsValidBucketName bucket); [|done]. simpl.
  pose proof (isBucketExist_facts xl rot bucket) as (_ & _ & Hro).
  destruct (isBucketExist xl rot bucket) as [[found xl1] evs1]; simpl in *.
  assert (Hpre : forall proj : event -> option nat,
            (forall ev, isReadOnlyEvent ev = true -> proj ev = None) ->
            omap proj evs1 = []).
  { intros proj Hproj. by apply (omap_none_Forall _ isReadOnlyEvent). }
  destruct found; simpl.
  2:{ unfold cleanupCalled, deleteVolSucceeded. by rewrite !Hpre by (by intros []). }
  unfold fanOut.
  pose proof (fanOutFrom_omap_eq (Some errDiskNotFound) (deleteVolOn bucket)
    (fun ev => match ev with EvCleanupDir index _ _ _ => Some index | _ => None end)
    (fun ev => match ev with EvDeleteVol index _ None => Some index | _ => None end)
    0 (storageDisks xl1)) as Heq.
  destruct (fanOutFrom _ (deleteVolOn bucket) 0 (storageDisks xl1))
    as [[disks2 dErrs] evs2] eqn:Hfan; simpl in *.
  assert (Hevs2 : cleanupCalled evs2 = deleteVolSucceeded evs2).
  { apply Heq. intros i d. unfold deleteVolOn.
    destruct (DeleteVol d bucket) as [d1 [e|]]; [done|].
    by destruct (cleanupDir d1 _ bucket) as [d2 e2]. }
  destruct (isDiskQuorum dErrs (writeQuorum xl)); simpl.
  - unfold cleanupCalled, deleteVolSucceeded.
    rewrite !omap_locked, !Hpre by (done || by intros []).
    exact (f_equal (app []) Hevs2).
  - pose proof (undoDeleteBucket_events (setDisks xl1 disks2) bucket) as (_ & Hmk).
    destruct (undoDeleteBucket (setDisks xl1 disks2) bucket) as [xl3 evs3]; simpl in *.
    unfold cleanupCalled, deleteVolSucceeded. rewrite !app_assoc.
    rewrite !omap_locked, !Hpre, !omap_app by (done || by intros []).
    rewrite !(omap_none_Forall _ isMakeVolEvent _ Hmk) by (by intros []).
    fold (cleanupCalled evs2) (deleteVolSucceeded evs2). by rewrite Hevs2.
Qed.

(** *** Mutations happen under the exclusive lock *)

Lemma getBucketInfoLoop_StatVol_only (bucketName : string) (order : list nat) :
  forall err disks,
  Forall (fun ev => isStatVolEvent ev = true)
    (getBucketInfoLoop bucketName order err disks).2.
Proof.
  induction order as [|i order IH]; intros err disks; cbn [getBucketInfoLoop]; [done|].
  destruct (disks !! i) as [[d|]|]; try apply IH.
  destruct (StatVol d bucketName) as [d' [volInfo [e|]]]; [|by repeat constructor].
  destruct (isErrIgnored e bucketMetadataOpIgnoredErrs); [|by repeat constructor].
  specialize (IH (Some e) (<[i:=Some d']> disks)).
  destruct (getBucketInfoLoop _ _ _ _) as [[r disks''] evs]. by constructor.
Qed.

Lemma isBucketExist_events (xl : xlObjects D) (rot : nat) (bucket : string) :
  exists stat,
    (isBucketExist xl rot bucket).2 = [EvRLock bucket ""] ++ stat ++ [EvRUnlock bucket ""]
    /\ Forall (fun ev => isStatVolEvent ev = true) stat.
Proof.
  unfold isBucketExist, getBucketInfo.
  pose proof (getBucketInfoLoop_StatVol_only bucket (getLoadBalancedDisks xl rot)
                None (storageDisks xl)) as Hst.
  destruct (getBucketInfoLoop _ _ _ _) as [[[info err] disks'] evs]. by exists evs.
Qed.

(** For a valid bucket name, [MakeBucket] and [DeleteBucket] go through the
    same two phases: the existence check, [StatVol] calls between taking
    and releasing the shared lock; then, unless the operation ends there,
    the calls that change the disks ([MakeVol], [DeleteVol], the clean-up),
    all of them between taking and releasing the exclusive lock.  No disk
    is changed outside the exclusive lock, the two locks are never held
    together, and every lock taken is released before the operation
    returns. *)
Theorem bucket_mutations_under_exclusive_lock
  (xl : xlObjects D) (rot : nat) (bucket : string) (evs : list event) :
  IsValidBucketName bucket = true ->
  evs = (MakeBucket xl rot bucket).2 \/ evs = (DeleteBucket xl rot bucket).2 ->
  exists stat mid,
    Forall (fun ev => isStatVolEvent ev = true) stat
    /\ Forall (fun ev => isMutationEvent ev = true) mid
    /\ (evs = [EvRLock bucket ""] ++ stat ++ [EvRUnlock bucket ""]
        \/ evs = [EvRLock bucket ""] ++ stat ++ [EvRUnlock bucket ""]
                 ++ [EvLock bucket ""] ++ mid ++ [EvUnlock bucket ""]).
Proof.
  intros Hvalid Hevs.
  destruct (isBucketExist_events xl rot bucket) as (stat & Hstat & Hst).
  exists stat.
  assert (Hmut : forall P : event -> bool,
            (forall ev, P ev = true -> isMutationEvent ev = true) ->
            forall l, Forall (fun ev => P ev = true) l ->
                      Forall (fun ev => isMutationEvent ev = true) l).
  { intros P HP l Hl. eapply Forall_impl; [exact Hl|]. exact HP. }
  destruct Hevs as [-> | ->].
  - unfold MakeBucket. rewrite Hvalid. simpl.
    destruct (isBucketExist xl rot bucket) as [[found xl1] evs1]; simpl in *.
    subst evs1. destruct found; simpl; [exists []; split_and!; [done|done|by left]|].
    unfold fanOut.
    pose proof (makeVolOn_events bucket 0 (storageDisks xl1)) as (_ & _ & Hmk).
    destruct (fanOutFrom _ (makeVolOn bucket) 0 (storageDisks xl1))
      as [[disks2 dErrs] evs2]; simpl in *.
    apply (Hmut isMakeVolEvent) in Hmk; [|by intros []].
    destruct (isDiskQuorum dErrs (writeQuorum xl)); simpl.
    + exists evs2. split_and!; [done|done|]. right. by rewrite <- !app_assoc.
    + pose proof (undoMakeBucket_events (setDisks xl1 disks2) bucket) as (_ & Hdel).
      destruct (undoMakeBucket (setDisks xl1 disks2) bucket) as [xl3 evs3]; simpl in *.
      apply (Hmut isDeleteVolEvent) in Hdel; [|by intros []].
      exists (evs2 ++ evs3). split_and!; [done|by apply Forall_app|].
      right. by rewrite <- !app_assoc.
  - unfold DeleteBucket. rewrite Hvalid. simpl.
    destruct (isBucketExist xl rot bucket) as [[found xl1] evs1]; simpl in *.
    subst evs1. destruct found; simpl; [|exists []; split_and!; [done|done|by left]].
    unfold fanOut.
    pose proof (fanOutFrom_Forall (fun ev => isMutationEvent ev = true)
                  (Some errDiskNotFound) (deleteVolOn bucket) 0 (storageDisks xl1)) as Hdv.
    destruct (fanOutFrom _ (deleteVolOn bucket) 0 (storageDisks xl1))
      as [[disks2 dErrs] evs2]; simpl in *.
    assert (Hevs2 : Forall (fun ev => isMutationEvent ev = true) evs2).
    { apply Hdv. intros i d. unfold deleteVolOn.
      destruct (DeleteVol d bucket) as [d1 [e|]]; [by repeat constructor|].
      destruct (cleanupDir d1 _ bucket) as [d2 e2]. by repeat constructor. }
    destruct (isDiskQuorum dErrs (writeQuorum xl)); simpl.
    + exists evs2. split_and!; [done|done|]. right. by rewrite <- !app_assoc.
    + pose proof (undoDeleteBucket_events (setDisks xl1 disks2) bucket) as (_ & Hmk).
      destruct (undoDeleteBucket (setDisks xl1 disks2) bucket) as [xl3 evs3]; simpl in *.
      apply (Hmut isMakeVolEvent) in Hmk; [|by intros []].
      exists (evs2 ++ evs3). split_and!; [done|by apply Forall_app|].
      right. by rewrite <- !app_assoc.
Qed.

(** *** The disk list keeps its shape *)

Lemma layout_insert (disks : list (option D)) (index : nat) (d d' : D) :
  disks !! index = Some (Some d) ->
  layout (<[index := Some d']> disks) = layout disks.
Proof.
  intros Hd. unfold layout. rewrite list_fmap_insert.
  apply list_insert_id. by rewrite list_lookup_fmap, Hd.
Qed.

Lemma fanOutFrom_layout (nilErr : option error)
  (body : nat -> D -> D * option error * list event)
  (index : nat) (disks : list (option D)) :
  layout (fanOutFrom nilErr body index disks).1.1 = layout disks.
Proof.
  revert index. induction disks as [|disk rest IH]; intros index; simpl; [done|].
  specialize (IH (S index)).
  destruct (fanOutFrom nilErr body (S index) rest) as [[disks' errs] evs]; simpl in *.
  destruct disk as [d|]; simpl.
  - destruct (body index d) as [[d' err] ev]; simpl.
    change (true :: layout disks' = true :: layout rest). by rewrite IH.
  - change (false :: layout disks' = false :: layout rest). by rewrite IH.
Qed.

Lemma fanOut_layout (nilErr : option error)
  (body : nat -> D -> D * option error * list event) (xl : xlObjects D) :
  layout (storageDisks (fanOut nilErr body xl).1.2) = layout (storageDisks xl)
  /\ writeQuorum (fanOut nilErr body xl).1.2 = writeQuorum xl.
Proof.
  unfold fanOut.
  pose proof (fanOutFrom_layout nilErr body 0 (storageDisks xl)) as Hl.
  by destruct (fanOutFrom nilErr body 0 (storageDisks xl)) as [[disks' errs] evs].
Qed.

Lemma getBucketInfoLoop_layout (bucketName : string) (order : list nat) :
  forall err disks,
  layout (getBucketInfoLoop bucketName order err disks).1.2 = layout disks.
Proof.
  induction order as [|i order IH]; intros err disks; cbn [getBucketInfoLoop]; [done|].
  destruct (disks !! i) as [[d|]|] eqn:Hi; try apply IH.
  destruct (StatVol d bucketName) as [d' [volInfo [e|]]];
    [|by apply (layout_insert _ _ d)].
  destruct (isErrIgnored e bucketMetadataOpIgnoredErrs);
    [|by apply (layout_insert _ _ d)].
  specialize (IH (Some e) (<[i:=Some d']> disks)).
  destruct (getBucketInfoLoop _ _ _ _) as [[r disks''] evs]; simpl in *.
  by rewrite IH, (layout_insert _ _ d).
Qed.

Lemma listBucketsLoop_layout (order : list nat) :
  forall err disks,
  layout (listBucketsLoop order err disks).1.2 = layout disks.
Proof.
  induction order as [|i order IH]; intros err disks; cbn [listBucketsLoop]; [done|].
  destruct (disks !! i) as [[d|]|] eqn:Hi; try apply IH.
  destruct (ListVols d) as [d' [volsInfo [e|]]].
  - destruct (isErrIgnored e bucketMetadataOpIgnoredErrs);
      [|by apply (layout_insert _ _ d)].
    specialize (IH (Some e) (<[i:=Some d']> disks)).
    destruct (listBucketsLoop _ _ _) as [[r disks''] evs]; simpl in *.
    by rewrite IH, (layout_insert _ _ d).
  - destruct (bucketsOf volsInfo); [|by apply (layout_insert _ _ d)].
    specialize (IH None (<[i:=Some d']> disks)).
    destruct (listBucketsLoop _ _ _) as [[r disks''] evs]; simpl in *.
    by rewrite IH, (layout_insert _ _ d).
Qed.

Lemma isBucketExist_layout (xl : xlObjects D) (rot : nat) (bucket : string) :
  layout (storageDisks (isBucketExist xl rot bucket).1.2) = layout (storageDisks xl)
  /\ writeQuorum (isBucketExist xl rot bucket).1.2 = writeQuorum xl.
Proof.
  unfold isBucketExist, getBucketInfo.
  pose proof (getBucketInfoLoop_layout bucket (getLoadBalancedDisks xl rot)
                None (storageDisks xl)) as Hl.
  by destruct (getBucketInfoLoop _ _ _ _) as [[[info err] disks'] evs].
Qed.

(** No bucket operation adds, drops or replaces by nil an entry of
    [xl.storageDisks], and none changes the write quorum: whatever the
    outcome, the disks that were nil are nil afterwards and the others are
    still there. *)
Theorem bucket_operations_keep_layout (xl xl' : xlObjects D) (rot : nat)
  (bucket : string) :
  xl' = (MakeBucket xl rot bucket).1.2
  \/ xl' = (DeleteBucket xl rot bucket).1.2
  \/ xl' = (GetBucketInfo xl rot bucket).1.2
  \/ xl' = (ListBuckets xl rot).1.2 ->
  layout (storageDisks xl') = layout (storageDisks xl)
  /\ length (storageDisks xl') = length (storageDisks xl)
  /\ writeQuorum xl' = writeQuorum xl.
Proof.
  intros Hop.
  assert (Hgoal : layout (storageDisks xl') = layout (storageDisks xl)
                  /\ writeQuorum xl' = writeQuorum xl).
  2:{ destruct Hgoal as [Hl Hq]. split_and!; [done| |done].
      apply (f_equal length) in Hl. unfold layout in Hl.
      by rewrite !length_fmap in Hl. }
  destruct Hop as [-> | [-> | [-> | ->]]].
  - unfold MakeBucket. destruct (IsValidBucketName bucket); [|done]. simpl.
    pose proof (isBucketExist_layout xl rot bucket) as [Hl1 Hq1].
    destruct (isBucketExist xl rot bucket) as [[found xl1] evs1]; simpl in *.
    destruct found; [done|].
    pose proof (fanOut_layout (Some errDiskNotFound) (makeVolOn bucket) xl1) as [Hl2 Hq2].
    destruct (fanOut _ (makeVolOn bucket) xl1) as [[dErrs xl2] evs2]; simpl in *.
    destruct (isDiskQuorum dErrs (writeQuorum xl)); simpl.
    + by rewrite Hl2, Hq2.
    + unfold undoMakeBucket.
      match goal with |- context [fanOut None ?b xl2] =>
        pose proof (fanOut_layout None b xl2) as [Hl3 Hq3];
        destruct (fanOut None b xl2) as [[errs3 xl3] evs3] end; simpl in *.
      by rewrite Hl3, Hq3, Hl2, Hq2.
  - unfold DeleteBucket. destruct (IsValidBucketName bucket); [|done]. simpl.
    pose proof (isBucketExist_layout xl rot bucket) as [Hl1 Hq1].
    destruct (isBucketExist xl rot bucket) as [[found xl1] evs1]; simpl in *.
    destruct found; [|done]. simpl.
    pose proof (fanOut_layout (Some errDiskNotFound) (deleteVolOn bucket) xl1) as [Hl2 Hq2].
    destruct (fanOut _ (deleteVolOn bucket) xl1) as [[dErrs xl2] evs2]; simpl in *.
    destruct (isDiskQuorum dErrs (writeQuorum xl)); simpl.
    + by rewrite Hl2, Hq2.
    + unfold undoDeleteBucket.
      match goal with |- context [fanOut None ?b xl2] =>
        pose proof (fanOut_layout None b xl2) as [Hl3 Hq3];
        destruct (fanOut None b xl2) as [[errs3 xl3] evs3] end; simpl in *.
      by rewrite Hl3, Hq3, Hl2, Hq2.
  - unfold GetBucketInfo. destruct (IsValidBucketName bucket); [|done]. simpl.
    unfold getBucketInfo.
    pose proof (getBucketInfoLoop_layout bucket (getLoadBalancedDisks xl rot)
                  None (storageDisks xl)) as Hl.
    destruct (getBucketInfoLoop _ _ _ _) as [[[info err] disks'] evs]; simpl in *.
    by destruct err.
  - unfold ListBuckets, listBuckets.
    pose proof (listBucketsLoop_layout (getLoadBalancedDisks xl rot)
                  None (storageDisks xl)) as Hl.
    destruct (listBucketsLoop _ _ _) as [[[bs err] disks'] evs]; simpl in *.
    by destruct err.
Qed.

(** *** With every disk nil *)

Lemma offline_lookup (disks : list (option D)) (i : nat) :
  Forall (fun disk => disk = None) disks ->
  disks !! i = None \/ disks !! i = Some None.
Proof.
  intros Hoff. destruct (disks !! i) as [disk|] eqn:Hi; [|by left].
  right. by rewrite (Forall_lookup_1 _ _ _ _ Hoff Hi).
Qed.

Lemma getBucketInfoLoop_offline (bucketName : string) (order : list nat)
  (err : option error) (disks : list (option D)) :
  Forall (fun disk => disk = None) disks ->
  getBucketInfoLoop bucketName order err disks
  = (({| Name := ""; Created := 0 |}, err), disks, []).
Proof.
  intros Hoff. induction order as [|i order IH]; cbn [getBucketInfoLoop]; [done|].
  by destruct (offline_lookup disks i Hoff) as [-> | ->].
Qed.

Lemma listBucketsLoop_offline (order : list nat) (err : option error)
  (disks : list (option D)) :
  Forall (fun disk => disk = None) disks ->
  listBucketsLoop order err disks = (([], err), disks, []).
Proof.
  intros Hoff. induction order as [|i order IH]; cbn [listBucketsLoop]; [done|].
  by destruct (offline_lookup disks i Hoff) as [-> | ->].
Qed.

Lemma fanOutFrom_offline (nilErr : option error)
  (body : nat -> D -> D * option error * list event)
  (index : nat) (disks : list (option D)) :
  Forall (fun disk => disk = None) disks ->
  fanOutFrom nilErr body index disks = (disks, replicate (length disks) nilErr, []).
Proof.
  intros Hoff. revert index.
  induction Hoff as [|disk rest -> _ IH]; intros index; simpl; [done|].
  by rewrite IH.
Qed.

Lemma isDiskQuorum_all_failed (n q : nat) (e : error) :
  0 < q -> isDiskQuorum (replicate n (Some e)) q = false.
Proof.
  intros Hq. apply isDiskQuorum_false. unfold successes.
  induction n as [|n IH]; simpl; [done|].
  by rewrite filter_cons_False.
Qed.

(** When every entry of [xl.storageDisks] is nil, [getBucketInfo] asks
    nobody and ends with a nil error, so [isBucketExist] answers true for
    every name: [MakeBucket] of a valid name reports the bucket as existing,
    [DeleteBucket] goes on to the fan-out and fails on the quorum (when the
    quorum is positive), and [ListBuckets] succeeds with no bucket.  None of
    them makes a storage call. *)
Theorem bucket_operations_without_disks (xl : xlObjects D) (rot : nat)
  (bucket : string) :
  Forall (fun disk => disk = None) (storageDisks xl) ->
  IsValidBucketName bucket = true ->
  isBucketExist xl rot bucket = (true, xl, [EvRLock bucket ""; EvRUnlock bucket ""])
  /\ MakeBucket xl rot bucket
     = (Some (toObjectErr errVolumeExists [bucket]), xl,
        [EvRLock bucket ""; EvRUnlock bucket ""])
  /\ ListBuckets xl rot = (([], None), xl, [])
  /\ (0 < writeQuorum xl ->
      DeleteBucket xl rot bucket
      = (Some (toObjectErr errXLWriteQuorum [bucket]), xl,
         [EvRLock bucket ""; EvRUnlock bucket ""; EvLock bucket ""; EvUnlock bucket ""])).
Proof.
  intros Hoff Hvalid.
  assert (Hset : setDisks xl (storageDisks xl) = xl) by by destruct xl.
  assert (Hex : isBucketExist xl rot bucket
                = (true, xl, [EvRLock bucket ""; EvRUnlock bucket ""])).
  { unfold isBucketExist, getBucketInfo.
    rewrite getBucketInfoLoop_offline by done. by rewrite Hset. }
  split_and!.
  - done.
  - unfold MakeBucket. by rewrite Hvalid, Hex.
  - unfold ListBuckets, listBuckets.
    rewrite listBucketsLoop_offline by done. by rewrite Hset.
  - intros Hq. unfold DeleteBucket. rewrite Hvalid, Hex. simpl.
    unfold fanOut. rewrite fanOutFrom_offline by done.
    rewrite Hset, isDiskQuorum_all_failed by done. simpl.
    unfold undoDeleteBucket, fanOut. rewrite fanOutFrom_offline by done.
    by rewrite Hset.
Qed.

(** *** What [GetBucketInfo] answers *)

Lemma getBucketInfoLoop_success (bucketName : string) (disks0 : list (option D))
  (order : list nat) :
  forall err disks,
  NoDup order ->
  (forall i, i ∈ order -> disks !! i = disks0 !! i) ->
  let r := getBucketInfoLoop bucketName order err disks in
  r.1.1.2 = None ->
  (r.2 = [] /\ err = None /\ r.1.1.1 = {| Name := ""; Created := 0 |})
  \/ exists index d volInfo,
       index ∈ order
       /\ disks0 !! index = Some (Some d)
       /\ (StatVol d bucketName).2 = (volInfo, None)
       /\ r.1.1.1 = {| Name := VolName volInfo; Created := VolCreated volInfo |}.
Proof.
  induction order as [|i order IH]; intros err disks Hnd Hsame;
    cbn [getBucketInfoLoop].
  - simpl. intros ->. by left.
  - apply NoDup_cons in Hnd as [Hnotin Hnd].
    pose proof (Hsame i ltac:(left)) as Hi0.
    assert (Htail : forall j, j ∈ order -> disks !! j = disks0 !! j).
    { intros j Hj. apply Hsame. by right. }
    destruct (disks !! i) as [[d|]|] eqn:Hi.
    + destruct (StatVol d bucketName) as [d' [volInfo [e|]]] eqn:Hstat.
      * destruct (isErrIgnored e bucketMetadataOpIgnoredErrs); [|done].
        assert (Hins : forall j, j ∈ order ->
                  (<[i:=Some d']> disks) !! j = disks0 !! j).
        { intros j Hj. rewrite list_lookup_insert_ne by (intros ->; done).
          by apply Htail. }
        specialize (IH (Some e) (<[i:=Some d']> disks) Hnd Hins).
        destruct (getBucketInfoLoop _ _ _ _) as [[r disks''] evs]; cbn [fst snd] in *.
        intros Hnone. specialize (IH Hnone).
        destruct IH as [(_ & ? & _)|(index & d0 & v0 & Hin & ? & ? & ?)]; [done|].
        right. exists index, d0, v0. split_and!; [by right|done..].
      * intros _. right. exists i, d, volInfo.
        split_and!; [by left|by rewrite <- Hi0|by rewrite Hstat|done].
    + intros Hnone.
      destruct (IH err disks Hnd Htail Hnone)
        as [?|(index & d0 & v0 & Hin & ? & ? & ?)]; [by left|].
      right. exists index, d0, v0. split_and!; [by right|done..].
    + intros Hnone.
      destruct (IH err disks Hnd Htail Hnone)
        as [?|(index & d0 & v0 & Hin & ? & ? & ?)]; [by left|].
      right. exists index, d0, v0. split_and!; [by right|done..].
Qed.

Lemma last_ignored_StatVol (bucket : string) (skipped : list event) :
  Forall (isIgnoredStatVol bucket) skipped ->
  forall err0 e,
  last (err0 :: omap (fun ev => match ev with
                                | EvStatVol _ _ e => Some e
                                | _ => None
                                end) skipped) ≫= id = Some e ->
  (skipped = [] /\ err0 = Some e)
  \/ exists index, last skipped = Some (EvStatVol index bucket (Some e)).
Proof.
  induction 1 as [|ev skipped (index & e1 & -> & _) _ IH]; intros err0 e.
  - simpl. intros ->. by left.
  - rewrite omap_cons_match, last_cons_cons. intros Hlast.
    right. destruct (IH _ _ Hlast) as [[-> [= ->]]|[index' Hl]].
    + by exists index.
    + exists index'. rewrite last_cons, Hl. done.
Qed.

(** For a valid name, [GetBucketInfo] asks the disks that are not nil in
    the load-balanced order, under the shared lock, and stops at the first
    answer that is not an ignorable error.  When it succeeds, the bucket
    info is the name and creation time of the volume some disk returned
    from [StatVol] without error; the one exception is that no [StatVol] was
    made at all, where it succeeds with an empty bucket info.  When it
    fails, the error is the object error of what the last [StatVol]
    returned. *)
Theorem GetBucketInfo_answer (xl : xlObjects D) (rot : nat) (bucket : string) :
  IsValidBucketName bucket = true ->
  let r := GetBucketInfo xl rot bucket in
  exists stat,
    r.2 = [EvRLock bucket ""] ++ stat ++ [EvRUnlock bucket ""]
    /\ Forall (fun ev => isStatVolEvent ev = true) stat
    /\ statVolCalled stat
       `prefix_of` List.filter (isOnline (storageDisks xl)) (getLoadBalancedDisks xl rot)
    /\ (r.1.1.2 = None ->
        (stat = [] /\ r.1.1.1 = {| Name := ""; Created := 0 |})
        \/ exists index d volInfo,
             storageDisks xl !! index = Some (Some d)
             /\ (StatVol d bucket).2 = (volInfo, None)
             /\ r.1.1.1 = {| Name := VolName volInfo; Created := VolCreated volInfo |})
    /\ (forall e', r.1.1.2 = Some e' ->
        exists index e, last stat = Some (EvStatVol index bucket (Some e))
                        /\ e' = toObjectErr e [bucket]).
Proof.
  intros Hvalid. unfold GetBucketInfo, getBucketInfo. rewrite Hvalid. simpl.
  pose proof (getBucketInfoLoop_walk bucket (getLoadBalancedDisks xl rot)
                None (storageDisks xl)) as (Hpre & skipped & final & Hevs & Hsk & Hfin).
  pose proof (getBucketInfoLoop_StatVol_only bucket (getLoadBalancedDisks xl rot)
                None (storageDisks xl)) as Hst.
  pose proof (getBucketInfoLoop_success bucket (storageDisks xl)
                (getLoadBalancedDisks xl rot) None (storageDisks xl)
                (getLoadBalancedDisks_NoDup xl rot) ltac:(done)) as Hok.
  destruct (getBucketInfoLoop _ _ _ _) as [[[info err] disks'] evs]; cbn [fst snd] in *.
  exists evs.
  assert (Hlast : forall e, err = Some e ->
            exists index, last evs = Some (EvStatVol index bucket (Some e))).
  { intros e ->. subst evs.
    destruct Hfin as [(-> & Herr & _)|[(index & -> & ?)|(index & e0 & -> & _ & Herr)]].
    - rewrite app_nil_r.
      destruct (last_ignored_StatVol bucket skipped Hsk None e) as [[_ ?]|?];
        [by rewrite <- Herr|done|done].
    - done.
    - injection Herr as ->. exists index. by rewrite last_snoc. }
  destruct err as [e|]; cbn [fst snd].
  - split_and!; [done|done|done|done|].
    intros e' [= <-]. destruct (Hlast e eq_refl) as [index Hl]. by exists index, e.
  - split_and!; [done|done|done| |done].
    intros _.
    destruct (Hok eq_refl) as [(-> & _ & ->)|(index & d & volInfo & _ & ? & ? & ->)].
    + by left.
    + right. by exists index, d, volInfo.
Qed.

(** *** How [ListBuckets] asks the disks *)

Lemma filter_isOnline_cons (disks : list (option D)) (i : nat) (order : list nat) :
  List.filter (isOnline disks) (i :: order)
  = match disks !! i with
    | Some (Some _) => i :: List.filter (isOnline disks) order
    | _ => List.filter (isOnline disks) order
    end.
Proof. unfold isOnline at 1. simpl. by destruct (disks !! i) as [[?|]|]. Qed.

Lemma listBucketsLoop_walk (order : list nat) :
  forall err disks,
  let r := listBucketsLoop order err disks in
  Forall (fun ev => isListVolsEvent ev = true) r.2
  /\ listVolsCalled r.2 `prefix_of` List.filter (isOnline disks) order
  /\ (forall e, r.1.1.2 = Some e ->
      r.1.1.1 = []
      /\ ((r.2 = [] /\ err = Some e)
          \/ exists index, last r.2 = Some (EvListVols index (Some e)))).
Proof.
  induction order as [|i order IH]; intros err disks; cbn [listBucketsLoop].
  - split_and!; [done|done|]. intros e Herr. split; [done|]. by left.
  - rewrite filter_isOnline_cons.
    destruct (disks !! i) as [[d|]|] eqn:Hi; try apply IH.
    assert (Hcont : forall err1 d',
      let r := listBucketsLoop order err1 (<[i:=Some d']> disks) in
      forall lastErr,
      (err1 = None \/ err1 = lastErr) ->
      Forall (fun ev => isListVolsEvent ev = true) (EvListVols i lastErr :: r.2)
      /\ listVolsCalled (EvListVols i lastErr :: r.2)
         `prefix_of` i :: List.filter (isOnline disks) order
      /\ (forall e, r.1.1.2 = Some e ->
          r.1.1.1 = []
          /\ ((EvListVols i lastErr :: r.2 = [] /\ err = Some e)
              \/ exists index,
                   last (EvListVols i lastErr :: r.2)
                   = Some (EvListVols index (Some e))))).
    { intros err1 d' r lastErr Herr1. subst r.
      specialize (IH err1 (<[i:=Some d']> disks)).
      rewrite (filter_isOnline_insert _ _ _ _ _ Hi) in IH.
      destruct (listBucketsLoop _ _ _) as [[r disks''] evs]; cbn [fst snd] in *.
      destruct IH as (Hall & Hpre & Herr).
      split_and!; [by constructor| |].
      - change (listVolsCalled (EvListVols i lastErr :: evs))
          with (i :: listVolsCalled evs). by apply prefix_cons.
      - intros e He. destruct (Herr e He) as [Hnil Hlast]. split; [done|].
        right. destruct Hlast as [[-> ->]|[index Hl]].
        + destruct Herr1 as [?| <-]; [done|]. by exists i.
        + exists index. by rewrite last_cons, Hl. }
    destruct (ListVols d) as [d' [volsInfo [e|]]]; cbn [fst snd].
    + destruct (isErrIgnored e bucketMetadataOpIgnoredErrs).
      * specialize (Hcont (Some e) d' (Some e) ltac:(by right)).
        by destruct (listBucketsLoop _ _ _) as [[r disks''] evs].
      * split_and!; [by repeat constructor| |].
        -- change (listVolsCalled [EvListVols i (Some e)]) with [i].
           apply prefix_cons, prefix_nil.
        -- intros e0 [= <-]. split; [done|]. right. by exists i.
    + destruct (bucketsOf volsInfo) as [|b bs].
      * specialize (Hcont None d' None ltac:(by left)).
        by destruct (listBucketsLoop _ _ _) as [[r disks''] evs].
      * split_and!; [by repeat constructor| |done].
        change (listVolsCalled [EvListVols i None]) with [i].
        apply prefix_cons, prefix_nil.
Qed.

(** [ListBuckets] takes no namespace lock and makes no storage call other
    than [ListVols]; it asks disks that are not nil, in the load-balanced
    order, none of them twice.  When it fails it returns no bucket, and its
    error is the object error of what the last [ListVols] it made
    returned. *)
Theorem ListBuckets_walk (xl : xlObjects D) (rot : nat) :
  let r := ListBuckets xl rot in
  Forall (fun ev => isListVolsEvent ev = true) r.2
  /\ listVolsCalled r.2
     `prefix_of` List.filter (isOnline (storageDisks xl)) (getLoadBalancedDisks xl rot)
  /\ NoDup (listVolsCalled r.2)
  /\ (forall e', r.1.1.2 = Some e' ->
      r.1.1.1 = []
      /\ exists index e, last r.2 = Some (EvListVols index (Some e))
                         /\ e' = toObjectErr e []).
Proof.
  unfold ListBuckets, listBuckets.
  pose proof (listBucketsLoop_walk (getLoadBalancedDisks xl rot) None (storageDisks xl))
    as (Hall & Hpre & Herr).
  destruct (listBucketsLoop _ _ _) as [[[bs err] disks'] evs]; cbn [fst snd] in *.
  assert (Hnd : NoDup (listVolsCalled evs)).
  { destruct Hpre as [k Hk].
    assert (Hf : NoDup (List.filter (isOnline (storageDisks xl))
                          (getLoadBalancedDisks xl rot))).
    { apply NoDup_ListNoDup, List.NoDup_filter, NoDup_ListNoDup,
        getLoadBalancedDisks_NoDup. }
    rewrite Hk in Hf. by apply NoDup_app in Hf as [? _]. }
  destruct err as [e|]; cbn [fst snd].
  - split_and!; [done|done|done|].
    intros e' [= <-]. split; [done|].
    destruct (Herr e eq_refl) as [_ [[_ ?]|[index Hl]]]; [done|]. by exists index, e.
  - split_and!; done.
Qed.

End MoreBucketFacts.

(** Two nil entries: no disk is there. *)
Definition noDisks : xlObjects simDisk :=
  {| storageDisks := [None; None]; writeQuorum := 2 |}.

Lemma invalid_bucket_name_touches_nothing_witness :
  DeleteBucket twoDisks 0 ".test" = (Some (BucketNameInvalid ".test"), twoDisks, []).
Proof.
  refine (proj1 (proj2 (invalid_bucket_name_touches_nothing twoDisks 0 ".test" _))).
  reflexivity.
Defined.

Lemma DeleteBucket_missing_bucket_witness :
  (DeleteBucket twoDisks 0 "music").1.1 = Some (BucketNotFound "music").
Proof.
  refine (proj1 (DeleteBucket_missing_bucket twoDisks 0 "music" _ _));
    reflexivity.
Defined.

Lemma MakeBucket_with_quorum_witness :
  makeVolCalled (MakeBucket twoDisks 0 "music").2 = [0; 1]
  /\ deleteVolCalled (MakeBucket twoDisks 0 "music").2 = [].
Proof.
  destruct (MakeBucket_with_quorum twoDisks 0 "music"
              (MakeBucket twoDisks 0 "music").1.1
              (MakeBucket twoDisks 0 "music").1.2
              (MakeBucket twoDisks 0 "music").2)
    as (Hmk & Hdel & _).
  - reflexivity.
  - reflexivity.
  - reflexivity.
  - vm_compute. lia.
  - split; [exact Hmk|exact Hdel].
Defined.

Lemma bucket_mutations_under_exclusive_lock_witness :
  exists stat mid,
    Forall (fun ev => isStatVolEvent ev = true) stat
    /\ Forall (fun ev => isMutationEvent ev = true) mid
    /\ ((DeleteBucket twoDisksFailLate 0 "photos").2
        = [EvRLock "photos" ""] ++ stat ++ [EvRUnlock "photos" ""]
        \/ (DeleteBucket twoDisksFailLate 0 "photos").2
           = [EvRLock "photos" ""] ++ stat ++ [EvRUnlock "photos" ""]
             ++ [EvLock "photos" ""] ++ mid ++ [EvUnlock "photos" ""]).
Proof.
  refine (bucket_mutations_under_exclusive_lock twoDisksFailLate 0 "photos"
            (DeleteBucket twoDisksFailLate 0 "photos").2 _ _).
  - reflexivity.
  - right. reflexivity.
Defined.

Lemma bucket_operations_keep_layout_witness :
  layout (storageDisks (MakeBucket oneDiskLeft 0 "photos").1.2)
  = [true; true; true; true].
Proof.
  refine (proj1 (bucket_operations_keep_layout oneDiskLeft
                   (MakeBucket oneDiskLeft 0 "photos").1.2 0 "photos" _)).
  left. reflexivity.
Defined.

Lemma bucket_operations_without_disks_witness :
  MakeBucket noDisks 0 "photos"
  = (Some (BucketExists "photos"), noDisks,
     [EvRLock "photos" ""; EvRUnlock "photos" ""]).
Proof.
  refine (proj1 (proj2 (bucket_operations_without_disks noDisks 0 "photos" _ _))).
  - by repeat constructor.
  - reflexivity.
Defined.

Lemma GetBucketInfo_answer_witness :
  exists stat,
    (GetBucketInfo twoDisks 1 "albums").2
    = [EvRLock "albums" ""] ++ stat ++ [EvRUnlock "albums" ""]
    /\ statVolCalled stat `prefix_of` [1; 0].
Proof.
  pose proof (GetBucketInfo_answer twoDisks 1 "albums") as Hans.
  specialize (Hans eq_refl).
  destruct Hans as (stat & Hevs & _ & Hpre & _).
  exists stat. split; [exact Hevs|exact Hpre].
Defined.

(** [GetBucketInfo] finds on the second disk what the first does not have. *)
Example GetBucketInfo_second_disk :
  (GetBucketInfo twoDisks 0 "albums").1.1 = ({| Name := "albums"; Created := 0 |}, None)
  /\ (GetBucketInfo twoDisks 0 "albums").2
     = [EvRLock "albums" ""; EvStatVol 0 "albums" (Some errVolumeNotFound);
        EvStatVol 1 "albums" None; EvRUnlock "albums" ""].
Proof. by vm_compute. Qed.

End XL.

(** * Storage RPC handlers (cmd/storage-rpc-server.go) *)
Module StorageRPC.
Import Storage.

Local Open Scope list_scope.

(** *** Argument and reply types

    Their fields are the ones the handlers use. *)
Record GenericArgs := { GenericArgs_Token : string }.
Record GenericVolArgs := { GenericVolArgs_Token : string; GenericVolArgs_Vol : string }.
Record GenericReply := { }.
Record ListVolsReply := { Vols : list VolInfo }.
Record StatFileArgs :=
  { StatFileArgs_Token : string; StatFileArgs_Vol : string; StatFileArgs_Path : string }.
Record ListDirArgs :=
  { ListDirArgs_Token : string; ListDirArgs_Vol : string; ListDirArgs_Path : string }.
Record ReadFileArgs := {
  ReadFileArgs_Token : string;
  ReadFileArgs_Vol : string;
  ReadFileArgs_Path : string;
  ReadFileArgs_Offset : Z;
  ReadFileArgs_Size : Z;
}.
Record AppendFileArgs := {
  AppendFileArgs_Token : string;
  AppendFileArgs_Vol : string;
  AppendFileArgs_Path : string;
  AppendFileArgs_Buffer : list byte;
}.
Record DeleteFileArgs :=
  { DeleteFileArgs_Token : string; DeleteFileArgs_Vol : string; DeleteFileArgs_Path : string }.
Record RenameFileArgs := {
  RenameFileArgs_Token : string;
  RenameFileArgs_SrcVol : string;
  RenameFileArgs_SrcPath : string;
  RenameFileArgs_DstVol : string;
  RenameFileArgs_DstPath : string;
}.

(** The storage calls a handler made, in order. *)
Inductive call :=
| CallDiskInfo
| CallMakeVol (vol : string)
| CallListVols
| CallStatVol (vol : string)
| CallDeleteVol (vol : string)
| CallStatFile (vol path : string)
| CallListDir (vol path : string)
| CallReadAll (vol path : string)
| CallReadFile (vol path : string) (offset : Z) (buf : list byte)
| CallAppendFile (vol path : string) (buf : list byte)
| CallDeleteFile (vol path : string)
| CallRenameFile (srcVol srcPath dstVol dstPath : string).

(** What a handler leaves behind: the storage, the reply object, the error
    it returns, and the storage calls it made. *)
Record handled (D R : Type) := Handled {
  disk : D;
  reply : R;
  err : option error;
  calls : list call;
}.
Arguments Handled {D R} disk reply err calls.
Arguments disk {D R} h.
Arguments reply {D R} h.
Arguments err {D R} h.
Arguments calls {D R} h.

Section Handlers.
Context {D : Type} `{StorageAPI D}.

(** [isRPCTokenValid] checks the JWT against the server's secret; [maxAlloc]
    is the largest length [make] accepts before it panics. *)
Variable isRPCTokenValid : string -> bool.
Variable maxAlloc : Z.

Definition DiskInfoHandler (s : D) (args : GenericArgs) (reply : Info)
  : handled D Info :=
  if negb (isRPCTokenValid (GenericArgs_Token args))
  then Handled s reply (Some errInvalidToken) []
  else
    let '(s', (info, err)) := DiskInfo s in
    Handled s' info err [CallDiskInfo].

Definition MakeVolHandler (s : D) (args : GenericVolArgs) (reply : GenericReply)
  : handled D GenericReply :=
  if negb (isRPCTokenValid (GenericVolArgs_Token args))
  then Handled s reply (Some errInvalidToken) []
  else
    let '(s', err) := MakeVol s (GenericVolArgs_Vol args) in
    Handled s' reply err [CallMakeVol (GenericVolArgs_Vol args)].

Definition ListVolsHandler (s : D) (args : GenericArgs) (reply : ListVolsReply)
  : handled D ListVolsReply :=
  if negb (isRPCTokenValid (GenericArgs_Token args))
  then Handled s reply (Some errInvalidToken) []
  else
    let '(s', (vols, err)) := ListVols s in
    match err with
    | Some e => Handled s' reply (Some e) [CallListVols]
    | None => Handled s' {| Vols := vols |} None [CallListVols]
    end.

Definition StatVolHandler (s : D) (args : GenericVolArgs) (reply : VolInfo)
  : handled D VolInfo :=
  if negb (isRPCTokenValid (GenericVolArgs_Token args))
  then Handled s reply (Some errInvalidToken) []
  else
    let '(s', (volInfo, err)) := StatVol s (GenericVolArgs_Vol args) in
    match err with
    | Some e => Handled s' reply (Some e) [CallStatVol (GenericVolArgs_Vol args)]
    | None => Handled s' volInfo None [CallStatVol (GenericVolArgs_Vol args)]
    end.

Definition DeleteVolHandler (s : D) (args : GenericVolArgs) (reply : GenericReply)
  : handled D GenericReply :=
  if negb (isRPCTokenValid (GenericVolArgs_Token args))
  then Handled s reply (Some errInvalidToken) []
  else
    let '(s', err) := DeleteVol s (GenericVolArgs_Vol args) in
    Handled s' reply err [CallDeleteVol (GenericVolArgs_Vol args)].

Definition StatFileHandler (s : D) (args : StatFileArgs) (reply : FileInfo)
  : handled D FileInfo :=
  if negb (isRPCTokenValid (StatFileArgs_Token args))
  then Handled s reply (Some errInvalidToken) []
  else
    let c := CallStatFile (StatFileArgs_Vol args) (StatFileArgs_Path args) in
    let '(s', (fileInfo, err)) :=
      StatFile s (StatFileArgs_Vol args) (StatFileArgs_Path args) in
    match err with
    | Some e => Handled s' reply (Some e) [c]
    | None => Handled s' fileInfo None [c]
    end.

Definition ListDirHandler (s : D) (args : ListDirArgs) (reply : list string)
  : handled D (list string) :=
  if negb (isRPCTokenValid (ListDirArgs_Token args))
  then Handled s reply (Some errInvalidToken) []
  else
    let c := CallListDir (ListDirArgs_Vol args) (ListDirArgs_Path args) in
    let '(s', (entries, err)) :=
      ListDir s (ListDirArgs_Vol args) (ListDirArgs_Path args) in
    match err with
    | Some e => Handled s' reply (Some e) [c]
    | None => Handled s' entries None [c]
    end.

Definition ReadAllHandler (s : D) (args : ReadFileArgs) (reply : list byte)
  : handled D (list byte) :=
  if negb (isRPCTokenValid (ReadFileArgs_Token args))
  then Handled s reply (Some errInvalidToken) []
  else
    let c := CallReadAll (ReadFileArgs_Vol args) (ReadFileArgs_Path args) in
    let '(s', (buf, err)) :=
      ReadAll s (ReadFileArgs_Vol args) (ReadFileArgs_Path args) in
    match err with
    | Some e => Handled s' reply (Some e) [c]
    | None => Handled s' buf None [c]
    end.

(** [make([]byte, size)]: panics on a negative or too large length. *)
Definition make (size : Z) : outcome (list byte) :=
  if decide (size < 0 \/ maxAlloc < size)%Z then Panics
  else Returns (replicate (Z.to_nat size) "000"%byte).

(** [b[0:n]] for [n : int64]: panics when [n] is out of range. *)
Definition slice0 (b : list byte) (n : Z) : outcome (list byte) :=
  if decide (n < 0 \/ Z.of_nat (length b) < n)%Z then Panics
  else Returns (take (Z.to_nat n) b).

(** The callee writes into the caller's slice: its length never changes. *)
Definition fill (buf data : list byte) : list byte :=
  take (length buf) (data ++ drop (length data) buf).

(** [ReadFileHandler].  The deferred function turns a panic of any step
    into the returned error [bytes.ErrTooLarge]; [*reply] keeps the value it
    had when the panic happened. *)
Definition ReadFileHandler (s : D) (args : ReadFileArgs) (reply : list byte)
  : handled D (list byte) :=
  if negb (isRPCTokenValid (ReadFileArgs_Token args))
  then Handled s reply (Some errInvalidToken) []
  else
    match make (ReadFileArgs_Size args) with
    | Panics => Handled s reply (Some bytes_ErrTooLarge) []
    | Returns buf =>
        let c := CallReadFile (ReadFileArgs_Vol args) (ReadFileArgs_Path args)
                   (ReadFileArgs_Offset args) buf in
        match ReadFile s (ReadFileArgs_Vol args) (ReadFileArgs_Path args)
                (ReadFileArgs_Offset args) buf with
        | (s', Panics) => Handled s' buf (Some bytes_ErrTooLarge) [c]
        | (s', Returns (n, data, err)) =>
            let buf' := fill buf data in
            let err := if decide (err = Some io_ErrUnexpectedEOF) then None else err in
            match slice0 buf' n with
            | Panics => Handled s' buf' (Some bytes_ErrTooLarge) [c]
            | Returns r => Handled s' r err [c]
            end
        end
    end.

Definition AppendFileHandler (s : D) (args : AppendFileArgs) (reply : GenericReply)
  : handled D GenericReply :=
  if negb (isRPCTokenValid (AppendFileArgs_Token args))
  then Handled s reply (Some errInvalidToken) []
  else
    let '(s', err) := AppendFile s (AppendFileArgs_Vol args)
                        (AppendFileArgs_Path args) (AppendFileArgs_Buffer args) in
    Handled s' reply err
      [CallAppendFile (AppendFileArgs_Vol args) (AppendFileArgs_Path args)
         (AppendFileArgs_Buffer args)].

Definition DeleteFileHandler (s : D) (args : DeleteFileArgs) (reply : GenericReply)
  : handled D GenericReply :=
  if negb (isRPCTokenValid (DeleteFileArgs_Token args))
  then Handled s reply (Some errInvalidToken) []
  else
    let '(s', err) := DeleteFile s (DeleteFileArgs_Vol args) (DeleteFileArgs_Path args) in
    Handled s' reply err
      [CallDeleteFile (DeleteFileArgs_Vol args) (DeleteFileArgs_Path args)].

Definition RenameFileHandler (s : D) (args : RenameFileArgs) (reply : GenericReply)
  : handled D GenericReply :=
  if negb (isRPCTokenValid (RenameFileArgs_Token args))
  then Handled s reply (Some errInvalidToken) []
  else
    let '(s', err) := RenameFile s (RenameFileArgs_SrcVol args) (RenameFileArgs_SrcPath args)
                        (RenameFileArgs_DstVol args) (RenameFileArgs_DstPath args) in
    Handled s' reply err
      [CallRenameFile (RenameFileArgs_SrcVol args) (RenameFileArgs_SrcPath args)
         (RenameFileArgs_DstVol args) (RenameFileArgs_DstPath args)].

(** The panics the handling of a [ReadFile] request can run into: in
    [make], inside the storage's [ReadFile], and in the final reslice. *)
Definition ReadFile_panics (s : D) (args : ReadFileArgs) : Prop :=
  make (ReadFileArgs_Size args) = Panics
  \/ exists buf, make (ReadFileArgs_Size args) = Returns buf
      /\ let r := ReadFile s (ReadFileArgs_Vol args) (ReadFileArgs_Path args)
                    (ReadFileArgs_Offset args) buf in
         (r.2 = Panics
          \/ exists n data err, r.2 = Returns (n, data, err)
               /\ slice0 (fill buf data) n = Panics).

End Handlers.

(** *** A disk to run the handlers on

    One volume holding one file; reads follow [io.ReadFull]: [io.EOF] when
    nothing could be read, [io.ErrUnexpectedEOF] when the file ends before
    the buffer is full.  A negative offset makes [ReadFile] panic. *)
Record fileDisk := {
  fdVol : string;
  fdPath : string;
  fdData : list byte;
}.

Definition fileDisk_has (d : fileDisk) (vol path : string) : bool :=
  String.eqb vol (fdVol d) && String.eqb path (fdPath d).

#[global] Instance fileDisk_StorageAPI : StorageAPI fileDisk := {|
  DiskInfo d := (d, ({| Info_Total := 1024;
                        Info_Free := 1024 - Z.of_nat (length (fdData d));
                        Info_FSType := "mem" |}, None));
  MakeVol d vol :=
    (d, Some (if String.eqb vol (fdVol d) then errVolumeExists else errDiskFull));
  ListVols d := (d, ([{| VolName := fdVol d; VolCreated := 0 |}], None));
  StatVol d vol :=
    (d, ({| VolName := vol; VolCreated := 0 |},
         if String.eqb vol (fdVol d) then None else Some errVolumeNotFound));
  DeleteVol d vol :=
    (d, Some (if String.eqb vol (fdVol d) then errVolumeNotEmpty else errVolumeNotFound));
  ListDir d vol path :=
    (d, if String.eqb vol (fdVol d) then ([fdPath d], None)
        else ([], Some errVolumeNotFound));
  ReadFile d vol path offset buf :=
    if (offset <? 0)%Z then (d, Panics)
    else if fileDisk_has d vol path then
      let data := take (length buf) (drop (Z.to_nat offset) (fdData d)) in
      (d, Returns (Z.of_nat (length data), data,
                   if decide (length data = length buf) then None
                   else if decide (length data = 0%nat) then Some io_EOF
                   else Some io_ErrUnexpectedEOF))
    else (d, Returns (0%Z, [], Some errFileNotFound));
  AppendFile d vol path buf :=
    if fileDisk_has d vol path
    then ({| fdVol := fdVol d; fdPath := fdPath d; fdData := fdData d ++ buf |}, None)
    else (d, Some errDiskFull);
  RenameFile d srcVol srcPath dstVol dstPath := (d, Some errFileAccessDenied);
  StatFile d vol path :=
    (d, ({| FileVolume := vol; FileName := path; FileModTime := 0;
            FileSize := Z.of_nat (length (fdData d)) |},
         if fileDisk_has d vol path then None else Some errFileNotFound));
  DeleteFile d vol path := (d, Some errFileAccessDenied);
  ReadAll d vol path :=
    if fileDisk_has d vol path then (d, (fdData d, None))
    else (d, ([], Some errFileNotFound));
|}.

Definition helloDisk : fileDisk :=
  {| fdVol := "bucket"; fdPath := "object/part.1";
     fdData := list_byte_of_string "hello" |}.

(** The server of the examples accepts one token. *)
Definition validToken (token : string) : bool := String.eqb token "valid-token".


(** *** Token check *)

(** C6. Whatever the storage and the arguments, each of the twelve storage
    handlers, given a token that [isRPCTokenValid] refuses, returns
    [errInvalidToken], makes no storage call, and leaves the storage and the
    reply object as they were. *)
Theorem handlers_reject_invalid_token {D : Type} `{StorageAPI D}
  (isRPCTokenValid : string -> bool) (maxAlloc : Z) (s : D) (token : string) :
  isRPCTokenValid token = false ->
  (forall reply,
     DiskInfoHandler isRPCTokenValid s {| GenericArgs_Token := token |} reply
     = Handled s reply (Some errInvalidToken) [])
  /\ (forall vol reply,
        MakeVolHandler isRPCTokenValid s
          {| GenericVolArgs_Token := token; GenericVolArgs_Vol := vol |} reply
        = Handled s reply (Some errInvalidToken) [])
  /\ (forall reply,
        ListVolsHandler isRPCTokenValid s {| GenericArgs_Token := token |} reply
        = Handled s reply (Some errInvalidToken) [])
  /\ (forall vol reply,
        StatVolHandler isRPCTokenValid s
          {| GenericVolArgs_Token := token; GenericVolArgs_Vol := vol |} reply
        = Handled s reply (Some errInvalidToken) [])
  /\ (forall vol reply,
        DeleteVolHandler isRPCTokenValid s
          {| GenericVolArgs_Token := token; GenericVolArgs_Vol := vol |} reply
        = Handled s reply (Some errInvalidToken) [])
  /\ (forall vol path reply,
        StatFileHandler isRPCTokenValid s
          {| StatFileArgs_Token := token; StatFileArgs_Vol := vol;
             StatFileArgs_Path := path |} reply
        = Handled s reply (Some errInvalidToken) [])
  /\ (forall vol path reply,
        ListDirHandler isRPCTokenValid s
          {| ListDirArgs_Token := token; ListDirArgs_Vol := vol;
             ListDirArgs_Path := path |} reply
        = Handled s reply (Some errInvalidToken) [])
  /\ (forall vol path offset size reply,
        ReadAllHandler isRPCTokenValid s
          {| ReadFileArgs_Token := token; ReadFileArgs_Vol := vol;
             ReadFileArgs_Path := path; ReadFileArgs_Offset := offset;
             ReadFileArgs_Size := size |} reply
        = Handled s reply (Some errInvalidToken) [])
  /\ (forall vol path offset size reply,
        ReadFileHandler isRPCTokenValid maxAlloc s
          {| ReadFileArgs_Token := token; ReadFileArgs_Vol := vol;
             ReadFileArgs_Path := path; ReadFileArgs_Offset := offset;
             ReadFileArgs_Size := size |} reply
        = Handled s reply (Some errInvalidToken) [])
  /\ (forall vol path buf reply,
        AppendFileHandler isRPCTokenValid s
          {| AppendFileArgs_Token := token; AppendFileArgs_Vol := vol;
             AppendFileArgs_Path := path; AppendFileArgs_Buffer := buf |} reply
        = Handled s reply (Some errInvalidToken) [])
  /\ (forall vol path reply,
        DeleteFileHandler isRPCTokenValid s
          {| DeleteFileArgs_Token := token; DeleteFileArgs_Vol := vol;
             DeleteFileArgs_Path := path |} reply
        = Handled s reply (Some errInvalidToken) [])
  /\ (forall srcVol srcPath dstVol dstPath reply,
        RenameFileHandler isRPCTokenValid s
          {| RenameFileArgs_Token := token; RenameFileArgs_SrcVol := srcVol;
             RenameFileArgs_SrcPath := srcPath; RenameFileArgs_DstVol := dstVol;
             RenameFileArgs_DstPath := dstPath |} reply
        = Handled s reply (Some errInvalidToken) []).
Proof.
  intros Htok.
  unfold DiskInfoHandler, MakeVolHandler, ListVolsHandler, StatVolHandler,
    DeleteVolHandler, StatFileHandler, ListDirHandler, ReadAllHandler,
    ReadFileHandler, AppendFileHandler, DeleteFileHandler, RenameFileHandler.
  simpl. rewrite Htok. simpl. split_and!; done.
Qed.

(** The absent token is the empty string: with it [ReadAll] is refused and
    the disk is not read. *)
Lemma handlers_reject_invalid_token_witness :
  ReadAllHandler validToken helloDisk
    {| ReadFileArgs_Token := ""; ReadFileArgs_Vol := "bucket";
       ReadFileArgs_Path := "object/part.1"; ReadFileArgs_Offset := 0;
       ReadFileArgs_Size := 5 |} []
  = Handled helloDisk [] (Some errInvalidToken) [].
Proof.
  refine (proj1 (proj2 (proj2 (proj2 (proj2 (proj2 (proj2 (proj2
    (handlers_reject_invalid_token validToken 1024 helloDisk "" _))))))))
    "bucket" "object/part.1" 0%Z 5%Z []).
  reflexivity.
Defined.

(** With the token accepted the same request reads the file. *)
Example ReadAll_with_valid_token :
  ReadAllHandler validToken helloDisk
    {| ReadFileArgs_Token := "valid-token"; ReadFileArgs_Vol := "bucket";
       ReadFileArgs_Path := "object/part.1"; ReadFileArgs_Offset := 0;
       ReadFileArgs_Size := 5 |} []
  = Handled helloDisk (list_byte_of_string "hello") None
      [CallReadAll "bucket" "object/part.1"].
Proof. reflexivity. Qed.


(** *** [ReadFileHandler] *)

Lemma length_fill (buf data : list byte) : length (fill buf data) = length buf.
Proof.
  unfold fill. rewrite length_take, length_app, length_drop. lia.
Qed.

Lemma make_Returns (maxAlloc size : Z) :
  (0 <= size <= maxAlloc)%Z ->
  make maxAlloc size = Returns (replicate (Z.to_nat size) "000"%byte).
Proof. intros Hs. unfold make. case_decide; [lia|done]. Qed.

(** C7. For a [ReadFile] request with an accepted token:
    (1) when the requested size can be allocated, the buffer handed to the
    storage's [ReadFile] is a fresh one of exactly that size;
    (2) when any step panics ([make], the storage call, the reslice) the
    handler still returns, with the error [bytes.ErrTooLarge];
    (3) on a short read, reported by the storage as [n] bytes and
    [io.ErrUnexpectedEOF], the reply is the first [n] bytes of the buffer,
    its length is [n], and the error is nil. *)
Theorem ReadFileHandler_buffer_recover_short_read {D : Type} `{StorageAPI D}
  (isRPCTokenValid : string -> bool) (maxAlloc : Z)
  (s : D) (args : ReadFileArgs) (reply0 : list byte) :
  isRPCTokenValid (ReadFileArgs_Token args) = true ->
  let h := ReadFileHandler isRPCTokenValid maxAlloc s args reply0 in
  let size := ReadFileArgs_Size args in
  let buf := replicate (Z.to_nat size) "000"%byte in
  let r := ReadFile s (ReadFileArgs_Vol args) (ReadFileArgs_Path args)
             (ReadFileArgs_Offset args) buf in
  ((0 <= size <= maxAlloc)%Z ->
     calls h = [CallReadFile (ReadFileArgs_Vol args) (ReadFileArgs_Path args)
                  (ReadFileArgs_Offset args) buf]
     /\ Z.of_nat (length buf) = size)
  /\ (ReadFile_panics maxAlloc s args -> err h = Some bytes_ErrTooLarge)
  /\ (forall n data,
        (0 <= size <= maxAlloc)%Z ->
        r.2 = Returns (n, data, Some io_ErrUnexpectedEOF) ->
        (0 <= n <= size)%Z ->
        reply h = take (Z.to_nat n) (fill buf data)
        /\ Z.of_nat (length (reply h)) = n
        /\ err h = None
        /\ disk h = r.1).
Proof.
  intros Htok h size buf r. subst h. unfold ReadFileHandler.
  rewrite Htok. simpl. fold size.
  assert (Hlen : (0 <= size)%Z -> Z.of_nat (length buf) = size).
  { intros ?. subst buf. rewrite length_replicate. lia. }
  split_and!.
  - intros Hs. rewrite (make_Returns _ _ Hs). fold buf r.
    split; [|by apply Hlen; lia].
    destruct r as [s' [[[n data] e]|]]; simpl; [|done].
    by destruct (slice0 _ n).
  - intros [Hmk|(b & Hmk & Hpanic)]; fold size in Hmk; rewrite Hmk; [done|].
    simpl in Hpanic.
    destruct (ReadFile s _ _ _ b) as [s' [[[n data] e]|]]; simpl in *.
    + destruct Hpanic as [?|(n' & data' & e' & [= <- <- <-] & Hsl)]; [done|].
      by rewrite Hsl.
    + done.
  - intros n data Hs Hr Hn. rewrite (make_Returns _ _ Hs). fold buf r.
    destruct r as [s' o]; simpl in *. subst o.
    unfold slice0. rewrite length_fill.
    case_decide as Hbad; [lia|]. simpl.
    split_and!; try done.
    all: try (rewrite length_take, length_fill; lia).
    all: try by case_decide.
Qed.

(** Eight bytes asked of a five-byte file: the reply is the five bytes. *)
Lemma ReadFileHandler_buffer_recover_short_read_witness :
  let h := ReadFileHandler validToken 1024 helloDisk
             {| ReadFileArgs_Token := "valid-token"; ReadFileArgs_Vol := "bucket";
                ReadFileArgs_Path := "object/part.1"; ReadFileArgs_Offset := 0;
                ReadFileArgs_Size := 8 |} [] in
  reply h = list_byte_of_string "hello" /\ err h = None.
Proof.
  pose (args := {| ReadFileArgs_Token := "valid-token"; ReadFileArgs_Vol := "bucket";
                   ReadFileArgs_Path := "object/part.1"; ReadFileArgs_Offset := 0;
                   ReadFileArgs_Size := 8 |}).
  destruct (proj2 (proj2
    (ReadFileHandler_buffer_recover_short_read validToken 1024 helloDisk args []
       eq_refl)) 5%Z (list_byte_of_string "hello"))
    as (Hreply & _ & Herr & _).
  - simpl; lia.
  - reflexivity.
  - simpl; lia.
  - split; [exact Hreply | exact Herr].
Defined.

(** A negative size, a size beyond what can be allocated, and a panic
    inside the storage all come back as [bytes.ErrTooLarge]. *)
Example ReadFile_negative_size :
  ReadFileHandler validToken 1024 helloDisk
    {| ReadFileArgs_Token := "valid-token"; ReadFileArgs_Vol := "bucket";
       ReadFileArgs_Path := "object/part.1"; ReadFileArgs_Offset := 0;
       ReadFileArgs_Size := -1 |} []
  = Handled helloDisk [] (Some bytes_ErrTooLarge) [].
Proof. reflexivity. Qed.

Example ReadFile_storage_panic :
  err (ReadFileHandler validToken 1024 helloDisk
         {| ReadFileArgs_Token := "valid-token"; ReadFileArgs_Vol := "bucket";
            ReadFileArgs_Path := "object/part.1"; ReadFileArgs_Offset := -3;
            ReadFileArgs_Size := 4 |} [])
  = Some bytes_ErrTooLarge.
Proof. reflexivity. Qed.

(** Reading at the end of the file is reported by the storage as [io.EOF],
    which the handler passes on. *)
Example ReadFile_at_end :
  ReadFileHandler validToken 1024 helloDisk
    {| ReadFileArgs_Token := "valid-token"; ReadFileArgs_Vol := "bucket";
       ReadFileArgs_Path := "object/part.1"; ReadFileArgs_Offset := 5;
       ReadFileArgs_Size := 4 |} []
  = Handled helloDisk [] (Some io_EOF)
      [CallReadFile "bucket" "object/part.1" 5 (replicate 4 "000"%byte)].
Proof. reflexivity. Qed.

(** *** The handlers with an accepted token *)

(** With an accepted token, the five handlers that return data make their
    one storage call and hand its error on as it is; the reply object is
    replaced by the data only when the call succeeded and is left as it was
    when the call failed.  [DiskInfoHandler] differs: it stores what
    [DiskInfo] returned in the reply whether the call failed or not. *)
Theorem data_handlers_keep_reply_on_error {D : Type} `{StorageAPI D}
  (isRPCTokenValid : string -> bool) (s : D) (token vol path : string)
  (offset size : Z) :
  isRPCTokenValid token = true ->
  (forall reply,
     let r := ListVols s in
     ListVolsHandler isRPCTokenValid s {| GenericArgs_Token := token |} reply
     = Handled r.1 (if r.2.2 is None then {| Vols := r.2.1 |} else reply) r.2.2
         [CallListVols])
  /\ (forall reply,
        let r := StatVol s vol in
        StatVolHandler isRPCTokenValid s
          {| GenericVolArgs_Token := token; GenericVolArgs_Vol := vol |} reply
        = Handled r.1 (if r.2.2 is None then r.2.1 else reply) r.2.2 [CallStatVol vol])
  /\ (forall reply,
        let r := StatFile s vol path in
        StatFileHandler isRPCTokenValid s
          {| StatFileArgs_Token := token; StatFileArgs_Vol := vol;
             StatFileArgs_Path := path |} reply
        = Handled r.1 (if r.2.2 is None then r.2.1 else reply) r.2.2
            [CallStatFile vol path])
  /\ (forall reply,
        let r := ListDir s vol path in
        ListDirHandler isRPCTokenValid s
          {| ListDirArgs_Token := token; ListDirArgs_Vol := vol;
             ListDirArgs_Path := path |} reply
        = Handled r.1 (if r.2.2 is None then r.2.1 else reply) r.2.2
            [CallListDir vol path])
  /\ (forall reply,
        let r := ReadAll s vol path in
        ReadAllHandler isRPCTokenValid s
          {| ReadFileArgs_Token := token; ReadFileArgs_Vol := vol;
             ReadFileArgs_Path := path; ReadFileArgs_Offset := offset;
             ReadFileArgs_Size := size |} reply
        = Handled r.1 (if r.2.2 is None then r.2.1 else reply) r.2.2
            [CallReadAll vol path])
  /\ (forall reply,
        let r := DiskInfo s in
        DiskInfoHandler isRPCTokenValid s {| GenericArgs_Token := token |} reply
        = Handled r.1 r.2.1 r.2.2 [CallDiskInfo]).
Proof.
  intros Htok.
  unfold ListVolsHandler, StatVolHandler, StatFileHandler, ListDirHandler,
    ReadAllHandler, DiskInfoHandler. simpl. rewrite Htok. simpl.
  split_and!; intros reply.
  - by destruct (ListVols s) as [s' [vols [e|]]].
  - by destruct (StatVol s vol) as [s' [v [e|]]].
  - by destruct (StatFile s vol path) as [s' [v [e|]]].
  - by destruct (ListDir s vol path) as [s' [v [e|]]].
  - by destruct (ReadAll s vol path) as [s' [v [e|]]].
  - by destruct (DiskInfo s) as [s' [v e]].
Qed.

Lemma data_handlers_keep_reply_on_error_witness :
  StatVolHandler validToken helloDisk
    {| GenericVolArgs_Token := "valid-token"; GenericVolArgs_Vol := "other" |}
    {| VolName := "previous"; VolCreated := 7 |}
  = Handled helloDisk {| VolName := "previous"; VolCreated := 7 |}
      (Some errVolumeNotFound) [CallStatVol "other"].
Proof.
  refine (proj1 (proj2 (data_handlers_keep_reply_on_error validToken helloDisk
                          "valid-token" "other" "" 0 0 _)) _).
  reflexivity.
Defined.

(** Whatever the token, the arguments and the storage do,
    [ReadFileHandler] either leaves the reply as it was or sets it to a
    slice no longer than the requested size. *)
Theorem ReadFileHandler_reply_bounded {D : Type} `{StorageAPI D}
  (isRPCTokenValid : string -> bool) (maxAlloc : Z)
  (s : D) (args : ReadFileArgs) (reply0 : list byte) :
  let h := ReadFileHandler isRPCTokenValid maxAlloc s args reply0 in
  reply h = reply0
  \/ (0 <= ReadFileArgs_Size args
      /\ Z.of_nat (length (reply h)) <= ReadFileArgs_Size args)%Z.
Proof.
  unfold ReadFileHandler.
  destruct (isRPCTokenValid _); simpl; [|by left].
  unfold make. case_decide as Hsize; [by left|].
  assert (Hlen : Z.of_nat (length (replicate (Z.to_nat (ReadFileArgs_Size args))
                                     "000"%byte)) = ReadFileArgs_Size args).
  { rewrite length_replicate. lia. }
  destruct (ReadFile s _ _ _ _) as [s' [[[n data] e]|]]; simpl.
  - unfold slice0. rewrite length_fill. case_decide as Hn; simpl.
    + right. rewrite length_fill. lia.
    + right. rewrite length_take, length_fill. lia.
  - right. lia.
Qed.

(** With an accepted token and a size that can be allocated, an error of
    the storage's [ReadFile] other than [io.ErrUnexpectedEOF] is returned
    as it is, [io.EOF] included, together with the first [n] bytes of the
    buffer; a read without error returns them with a nil error. *)
Theorem ReadFileHandler_passes_errors {D : Type} `{StorageAPI D}
  (isRPCTokenValid : string -> bool) (maxAlloc : Z)
  (s : D) (args : ReadFileArgs) (reply0 : list byte)
  (n : Z) (data : list byte) (e : option error) :
  isRPCTokenValid (ReadFileArgs_Token args) = true ->
  (0 <= ReadFileArgs_Size args <= maxAlloc)%Z ->
  let buf := replicate (Z.to_nat (ReadFileArgs_Size args)) "000"%byte in
  let r := ReadFile s (ReadFileArgs_Vol args) (ReadFileArgs_Path args)
             (ReadFileArgs_Offset args) buf in
  r.2 = Returns (n, data, e) ->
  (0 <= n <= ReadFileArgs_Size args)%Z ->
  e <> Some io_ErrUnexpectedEOF ->
  let h := ReadFileHandler isRPCTokenValid maxAlloc s args reply0 in
  err h = e
  /\ reply h = take (Z.to_nat n) (fill buf data)
  /\ disk h = r.1.
Proof.
  intros Htok Hsize buf r Hr Hn He h. subst h. unfold ReadFileHandler.
  rewrite Htok. simpl. rewrite (make_Returns _ _ Hsize). fold buf r.
  destruct r as [s' o]; simpl in *. subst o.
  unfold slice0. rewrite length_fill.
  assert (Hlen : Z.of_nat (length buf) = ReadFileArgs_Size args).
  { subst buf. rewrite length_replicate. lia. }
  case_decide as Hbad; [lia|]. simpl.
  split_and!; [|done|done]. by case_decide.
Qed.

(** At the end of the file the storage reports [io.EOF], and so does the
    handler. *)
Lemma ReadFileHandler_passes_errors_witness :
  err (ReadFileHandler validToken 1024 helloDisk
         {| ReadFileArgs_Token := "valid-token"; ReadFileArgs_Vol := "bucket";
            ReadFileArgs_Path := "object/part.1"; ReadFileArgs_Offset := 5;
            ReadFileArgs_Size := 4 |} [])
  = Some io_EOF.
Proof.
  refine (proj1 (ReadFileHandler_passes_errors validToken 1024 helloDisk
    {| ReadFileArgs_Token := "valid-token"; ReadFileArgs_Vol := "bucket";
       ReadFileArgs_Path := "object/part.1"; ReadFileArgs_Offset := 5;
       ReadFileArgs_Size := 4 |} [] 0 [] (Some io_EOF) _ _ _ _ _)).
  - reflexivity.
  - simpl; lia.
  - reflexivity.
  - simpl; lia.
  - discriminate.
Defined.

(** *** [newRPCServer] *)

(** [strings.LastIndex(s, sep)] for a separator of one byte: the index of
    its last occurrence in [s], or -1. *)
Fixpoint lastIndexFrom (c : ascii) (s : string) (i : nat) (found : Z) : Z :=
  match s with
  | EmptyString => found
  | String a s' =>
      lastIndexFrom c s' (S i) (if Ascii.eqb a c then Z.of_nat i else found)
  end.

Definition LastIndexByte (s : string) (c : ascii) : Z := lastIndexFrom c s 0 (-1).

(** [s[k:]] *)
Definition sliceFrom (s : string) (k : nat) : string :=
  substring k (String.length s - k) s.

(** [if idx := strings.LastIndex(export, ":"); idx != -1 { export = export[idx+1:] }] *)
Definition afterLastColon (export : string) : string :=
  let idx := LastIndexByte export ":" in
  if decide (idx <> (-1)%Z) then sliceFrom export (Z.to_nat (idx + 1)) else export.

Record serverCmdConfig := {
  disks : list string;
  ignoredDisks : list string;
}.

Record storageServer (D : Type) := {
  storage : option D;
  path : string;
}.
Arguments storage {D} s.
Arguments path {D} s.

Section NewRPCServer.
Context {D : Type}.

(** [isLocalStorage] tells whether an export is a disk of this node;
    [newPosix] opens it and returns the storage, nil on failure, and the
    error. *)
Variable isLocalStorage : string -> bool.
Variable newPosix : string -> option D * option error.

(** The loop over the exports; [servers] and [err] are the named results. *)
Fixpoint newRPCServerLoop (skipDisks : gset string) (exports : list string)
  (servers : list (storageServer D)) (err : option error)
  : list (storageServer D) * option error :=
  match exports with
  | [] => (servers, err)
  | export :: rest =>
      if decide (export ∈ skipDisks) then newRPCServerLoop skipDisks rest servers err
      else if isLocalStorage export then
        let export1 := afterLastColon export in
        let '(storage, err1) := newPosix export1 in
        if decide (err1 <> None /\ err1 <> Some errDiskNotFound) then ([], err1)
        else
          let export2 := afterLastColon export1 in
          newRPCServerLoop skipDisks rest
            (servers ++ [{| storage := storage; path := export2 |}]) err1
      else newRPCServerLoop skipDisks rest servers err
  end.

(** [newRPCServer]; [skipDisks] is the map used as a set of the ignored
    exports. *)
Definition newRPCServer (serverConfig : serverCmdConfig)
  : list (storageServer D) * option error :=
  let exports := disks serverConfig in
  let ignoredExports := ignoredDisks serverConfig in
  let skipDisks : gset string := list_to_set ignoredExports in
  newRPCServerLoop skipDisks exports [] None.

(** The exports [newRPCServer] opens: local and not ignored. *)
Definition served (serverConfig : serverCmdConfig) : list string :=
  List.filter (fun export => negb (bool_decide (export ∈ ignoredDisks serverConfig))
                             && isLocalStorage export)
    (disks serverConfig).

(** An error of [newPosix] that stops [newRPCServer]. *)
Definition isFatal (err : option error) : bool :=
  match err with
  | None | Some errDiskNotFound => false
  | Some _ => true
  end.

End NewRPCServer.

Fixpoint hasByte (s : string) (c : ascii) : bool :=
  match s with
  | EmptyString => false
  | String a s' => Ascii.eqb a c || hasByte s' c
  end.

Lemma lastIndexFrom_spec (c : ascii) (s : string) :
  forall i found,
  (hasByte s c = false /\ lastIndexFrom c s i found = found)
  \/ exists pre post,
       s = (pre ++ String c post)%string
       /\ hasByte post c = false
       /\ lastIndexFrom c s i found = Z.of_nat (i + String.length pre).
Proof.
  induction s as [|a s IH]; intros i found; simpl.
  - by left.
  - destruct (IH (S i) (if Ascii.eqb a c then Z.of_nat i else found))
      as [[Hno ->]|(pre & post & -> & Hpost & ->)].
    + destruct (Ascii.eqb_spec a c) as [->|Hne].
      * right. exists "", s. split_and!; [done|done|]. simpl. f_equal. lia.
      * left. by rewrite Hno.
    + right. exists (String a pre), post. split_and!; [done|done|].
      simpl. f_equal. lia.
Qed.

Lemma hasByte_app (s t : string) (c : ascii) :
  hasByte (s ++ t)%string c = hasByte s c || hasByte t c.
Proof.
  induction s as [|a s IH]; [done|].
  change (String a s ++ t)%string with (String a (s ++ t)%string).
  simpl. rewrite IH. by rewrite orb_assoc.
Qed.

Lemma sliceFrom_after (pre post : string) (c : ascii) :
  sliceFrom (pre ++ String c post)%string (String.length pre + 1) = post.
Proof.
  unfold sliceFrom. rewrite length_string_app. simpl.
  replace (String.length pre + S (String.length post) - (String.length pre + 1))
    with (String.length post) by lia.
  induction pre as [|a pre IH]; simpl.
  - apply substring_0_length.
  - exact IH.
Qed.

(** What [afterLastColon] returns has no colon: the text after the last
    colon of the export, or the export itself when it has none. *)
Lemma afterLastColon_spec (export : string) :
  hasByte (afterLastColon export) ":" = false
  /\ ((hasByte export ":" = false /\ afterLastColon export = export)
      \/ exists pre, export = (pre ++ String ":" (afterLastColon export))%string).
Proof.
  unfold afterLastColon, LastIndexByte.
  destruct (lastIndexFrom_spec ":" export 0 (-1))
    as [[Hno ->]|(pre & post & -> & Hpost & ->)].
  - case_decide; [done|]. split; [done|]. by left.
  - case_decide as Hidx; [|lia].
    replace (Z.to_nat (Z.of_nat (0 + String.length pre) + 1))
      with (String.length pre + 1) by lia.
    rewrite sliceFrom_after. split; [done|]. right. by exists pre.
Qed.

Lemma afterLastColon_idempotent (export : string) :
  afterLastColon (afterLastColon export) = afterLastColon export.
Proof.
  destruct (afterLastColon_spec export) as [Hno _].
  destruct (afterLastColon_spec (afterLastColon export))
    as [_ [[_ ->]|[pre Hpre]]]; [done|].
  rewrite Hpre, hasByte_app in Hno. simpl in Hno.
  by rewrite orb_true_r in Hno.
Qed.

Section NewRPCServerFacts.
Context {D : Type}.
Variable isLocalStorage : string -> bool.
Variable newPosix : string -> option D * option error.

(** The server [newRPCServer] makes for an export. *)
Definition serverOf (export : string) : storageServer D :=
  {| storage := (newPosix (afterLastColon export)).1;
     path := afterLastColon export |}.

Lemma newRPCServerLoop_spec (skipDisks : gset string) (exports : list string) :
  forall servers err,
  let opened :=
    List.filter (fun export => negb (bool_decide (export ∈ skipDisks))
                               && isLocalStorage export) exports in
  newRPCServerLoop isLocalStorage newPosix skipDisks exports servers err
  = match List.find (fun export => isFatal (newPosix (afterLastColon export)).2) opened with
    | Some export => ([], (newPosix (afterLastColon export)).2)
    | None =>
        (servers ++ (serverOf <$> opened),
         match last opened with
         | Some export => (newPosix (afterLastColon export)).2
         | None => err
         end)
    end.
Proof.
  induction exports as [|export rest IH]; intros servers err; simpl.
  - by rewrite app_nil_r.
  - case_decide as Hskip.
    + rewrite bool_decide_eq_true_2 by done. simpl. apply IH.
    + rewrite bool_decide_eq_false_2 by done. simpl.
      destruct (isLocalStorage export); simpl in *; [|apply IH].
      destruct (newPosix (afterLastColon export)) as [st e] eqn:Hopen; simpl.
      case_decide as Hfatal.
      * assert (isFatal e = true) as Hf.
        { destruct Hfatal as [? ?]. by destruct e as [[]|]. }
        rewrite Hf. by rewrite Hopen.
      * assert (isFatal e = false) as ->.
        { destruct e as [e|]; [|done].
          destruct (decide (e = errDiskNotFound)) as [->|]; [done|].
          exfalso. apply Hfatal. split; congruence. }
        rewrite IH, afterLastColon_idempotent.
        destruct (List.find _ _); [done|].
        rewrite <- app_assoc. unfold serverOf at 2. rewrite Hopen.
        f_equal. rewrite last_cons.
        destruct (last _) as [export'|]; [done|]. by rewrite Hopen.
Qed.

(** [newRPCServer] opens, in order, the exports that are local and not
    ignored.  If opening one of them fails with an error other than
    [errDiskNotFound], it returns no server and the first such error.
    Otherwise it returns one server per opened export, in order, and beside
    them the error of the export opened last, nil or [errDiskNotFound]: a
    disk not found earlier in the list leaves no trace in the error. *)
Theorem newRPCServer_result (serverConfig : serverCmdConfig) :
  let opened := served isLocalStorage serverConfig in
  newRPCServer isLocalStorage newPosix serverConfig
  = match List.find (fun export => isFatal (newPosix (afterLastColon export)).2) opened with
    | Some export => ([], (newPosix (afterLastColon export)).2)
    | None =>
        (serverOf <$> opened,
         match last opened with
         | Some export => (newPosix (afterLastColon export)).2
         | None => None
         end)
    end.
Proof.
  unfold newRPCServer, served. rewrite newRPCServerLoop_spec. simpl.
  assert (Hfilter :
    List.filter (fun export =>
                   negb (bool_decide (export ∈ (list_to_set (ignoredDisks serverConfig)
                                                 : gset string)))
                   && isLocalStorage export) (disks serverConfig)
    = List.filter (fun export =>
                     negb (bool_decide (export ∈ ignoredDisks serverConfig))
                     && isLocalStorage export) (disks serverConfig)).
  { apply List.filter_ext. intros export. f_equal. f_equal.
    apply bool_decide_ext, elem_of_list_to_set. }
  by rewrite Hfilter.
Qed.

(** The path of every server [newRPCServer] returns contains no colon: it
    is what follows the last colon of its export.  The second removal of
    the part up to the last colon, after [newPosix], never changes the
    path. *)
Theorem newRPCServer_paths (serverConfig : serverCmdConfig) :
  Forall (fun server =>
            hasByte (path server) ":" = false
            /\ exists export,
                 export ∈ disks serverConfig
                 /\ ~ (export ∈ ignoredDisks serverConfig)
                 /\ isLocalStorage export = true
                 /\ path server = afterLastColon export)
    (newRPCServer isLocalStorage newPosix serverConfig).1.
Proof.
  unfold newRPCServer. rewrite newRPCServerLoop_spec. simpl.
  destruct (List.find _ _); [done|]. simpl.
  apply Forall_fmap, Forall_forall. intros export Hin.
  apply list_elem_of_In, List.filter_In in Hin as [Hin Hcond].
  apply andb_true_iff in Hcond as [Hskip Hlocal].
  apply negb_true_iff, bool_decide_eq_false in Hskip.
  split; [apply afterLastColon_spec|].
  exists export. split_and!; [by apply list_elem_of_In| |done|done].
  intros Hign. apply Hskip. by apply elem_of_list_to_set.
Qed.

End NewRPCServerFacts.

(** Three exports, the second ignored; opening "/mnt/disk3" finds no disk. *)
Example newRPCServer_example :
  newRPCServer (fun _ => true)
    (fun export => if String.eqb export "/mnt/disk3"
                   then (None, Some errDiskNotFound) else (Some helloDisk, None))
    {| disks := ["node1:/mnt/disk1"; "node1:/mnt/disk2"; "/mnt/disk3"];
       ignoredDisks := ["node1:/mnt/disk2"] |}
  = ([ {| storage := Some helloDisk; path := "/mnt/disk1" |};
       {| storage := None; path := "/mnt/disk3" |} ],
     Some errDiskNotFound).
Proof. by vm_compute. Qed.

End StorageRPC.
